(** * pokt-calculator: the pocket provider and the monitoring endpoints

    A shallow embedding of

    - the HTTP provider of package [pocket] ([doRequest], [BlockTime],
      [Node]), and
    - [MonthlyRewardsEndpoint] of package [monitoring],

    with the properties of the block-time resolver, of the chain-name
    fallback and of the ordering of monthly summaries.

    Conventions.  A Go result [(T, error)] is a pair whose second
    component is [None] for [nil].  A Go [uint] is an integer in [Z]
    with the wrap-around of 64-bit addition written out.  A [time.Time]
    is the number of nanoseconds since the zero time, so [time.Time{}]
    is [0].  A [float64] that is only copied or compared with zero is
    an exact rational. *)

From Stdlib Require Import ZArith QArith Lia.
From stdpp Require Import base option list sorting gmap strings.

Local Open Scope Z_scope.
Local Open Scope string_scope.

(** ** Go basics *)

Definition error : Type := option string.

Abbreviation uint := Z (only parsing).
Definition uint_modulus : Z := 2 ^ 64.
Definition uint_add (a b : uint) : uint := (a + b) mod uint_modulus.

Abbreviation Time := Z (only parsing).
Definition zeroTime : Time := 0.

Definition float64 : Type := Q.

Definition bytes : Type := list Byte.byte.

(** [fmt.Errorf(prefix + "%s", err)]: the message of [err] after the prefix. *)
Definition Errorf (prefix : string) (err : string) : string := prefix ++ err.

(** [fmt.Sprintf("%s/%s", a, b)] *)
Definition Sprintf_slash (a b : string) : string := a ++ "/" ++ b.

(** ** Package pocket: the types the provider and the endpoints use *)

Module Pocket.

Record Chain := mkChain { Chain_Name : string; Chain_ID : string }.

(** [pocket.Chain{}] *)
Definition zeroChain : Chain := mkChain "" "".

(** Modelled from the spec: [pocket.ChainFromID] and its static chain
    table are not part of the sources at hand.  The table maps a chain
    identifier to its display name; an identifier without an entry is
    reported with an error, next to the zero [Chain]. *)
Definition ChainFromID (chains : gmap string string) (chainID : string)
  : Chain * error :=
  match chains !! chainID with
  | Some name => (mkChain name chainID, None)
  | None => (zeroChain, Some ("invalid chain id: " ++ chainID))
  end.

(** A chain table with a single entry, to run the code on. *)
Definition mainnetOnly : gmap string string :=
  {["0001" := "Pocket Network Mainnet"]}.

Record Node := mkNode {
  Node_Address : string;
  Node_Pubkey : string;
  Node_ServiceURL : string;
  Node_Balance : uint;
  Node_StakedBalance : uint;
  Node_IsJailed : bool;
  Node_Chains : list Chain;
  Node_IsSynced : bool;
  Node_LatestBlockHeight : uint;
  Node_LatestBlockTime : Time
}.

(** [pocket.Node{}] *)
Definition zeroNode : Node :=
  mkNode "" "" "" 0 0 false [] false 0 zeroTime.

Record Transaction := mkTransaction {
  Hash : string;
  Height : uint;
  TxTime : Time;
  Type_ : string;
  ChainID : string;
  SessionHeight : uint;
  ExpireHeight : uint;
  AppPubkey : string;
  NumRelays : uint;
  PoktPerRelay : float64;
  IsConfirmed : bool
}.

Record DayOfWeek := mkDayOfWeek { Day_Name : string; Day_Proofs : uint }.

Record MonthlyReward := mkMonthlyReward {
  Year : uint;
  Month : uint;
  TotalProofs : uint;
  AvgSecsBetweenRewards : float64;
  TotalSecsBetweenRewards : float64;
  Transactions : list Transaction;
  DaysOfWeek : gmap Z DayOfWeek
}.

End Pocket.

(** ** The provider (package pocket, HTTP implementation) *)

Module Provider.

Import Pocket.

Definition contentTypeJSON : string := "application/json; charset=UTF-8".
Definition pocketEndpoint : string := "https://node-000.pokt.gaagl.com/v1".
Definition urlPathGetBlock : string := "/query/block".
Definition urlPathGetNode : string := "/query/node".
Definition MethodPost : string := "POST".

(** The request objects handed to [doRequest] as [interface{}]. *)
Record queryNodeRequest := { qnr_Address : string }.
Record blockRequest := { br_Height : uint }.

Inductive reqObj :=
| ReqNode (r : queryNodeRequest)
| ReqBlock (r : blockRequest).

Record header := { hdr_Time : Time }.
Record block := { blk_Header : header }.
Record blockResponse := { resp_Block : block }.

Record queryNodeResponse := {
  qn_Address : string;
  qn_StakedBalance : uint;
  qn_IsJailed : bool;
  qn_Chains : list string
}.

(** [net/http]: a request, and a response with its (never nil) body.
    Reading the body yields its content or a read error. *)
Record Request := mkRequest {
  req_Method : string;
  req_URL : string;
  req_Header : list (string * string);
  req_Body : bytes
}.

Record ReadCloser := { rc_content : bytes; rc_err : error }.
Record Response := { Body : ReadCloser }.

(** [net/textproto]: the bytes a header key may hold (the characters of
    a token). *)
Definition validHeaderFieldByte (c : Ascii.ascii) : bool :=
  let n := Ascii.N_of_ascii c in
  ((48 <=? n) && (n <=? 57) || (65 <=? n) && (n <=? 90) ||
   (97 <=? n) && (n <=? 122) ||
   existsb (N.eqb n) [33; 35; 36; 37; 38; 39; 42; 43; 45; 46; 94; 95; 96;
                      124; 126])%N.

Fixpoint allValidHeaderFieldBytes (s : string) : bool :=
  match s with
  | EmptyString => true
  | String c rest => validHeaderFieldByte c && allValidHeaderFieldBytes rest
  end.

(** The loop of [canonicalMIMEHeaderKey]: upper case for the first letter
    and for a letter after a dash, lower case for the others. *)
Fixpoint canonicalise (upper : bool) (s : string) : string :=
  match s with
  | EmptyString => EmptyString
  | String c rest =>
    let n := Ascii.N_of_ascii c in
    let c' :=
      if upper && (97 <=? n)%N && (n <=? 122)%N then Ascii.ascii_of_N (n - 32)
      else if negb upper && (65 <=? n)%N && (n <=? 90)%N
           then Ascii.ascii_of_N (n + 32)
           else c in
    String c' (canonicalise (Ascii.N_of_ascii c' =? 45)%N rest)
  end.

(** [textproto.CanonicalMIMEHeaderKey]: a key with a byte that no header
    key may hold is left as it is. *)
Definition CanonicalMIMEHeaderKey (s : string) : string :=
  if allValidHeaderFieldBytes s then canonicalise true s else s.

(** [Header.Set]: the entry under the canonical form of the key is
    replaced by the value. *)
Definition Header_Set (r : Request) (k v : string) : Request :=
  let key := CanonicalMIMEHeaderKey k in
  mkRequest (req_Method r) (req_URL r)
    ((key, v) :: filter (λ kv, kv.1 ≠ key) (req_Header r)) (req_Body r).

(** [ioutil.ReadAll] *)
Definition ReadAll (b : ReadCloser) : bytes * error :=
  (rc_content b, rc_err b).

(** The interface [blockTimesRepo] over the states [S] of a store.
    Both methods may change the store. *)
Class blockTimesRepo (S : Type) := {
  Get : uint → S → (Time * bool * error) * S;
  Set_ : uint → Time → S → error * S
}.

(** The library calls whose results the provider inspects: [json.Marshal],
    [http.NewRequest], the client's [Do] over the states [Net] of the
    network, and [json.Unmarshal] at the two response types.  [Do] and
    [NewRequest] return a pointer, which may be nil. *)
Class Runtime (Net : Type) := {
  json_Marshal : reqObj → bytes * error;
  http_NewRequest : string → string → bytes → option Request * error;
  client_Do : Request → Net → (option Response * error) * Net;
  json_Unmarshal_block : bytes → blockResponse * error;
  json_Unmarshal_node : bytes → queryNodeResponse * error
}.

Inductive event :=
| EvGet (height : uint)
| EvSet (height : uint) (t : Time)
| EvDo (r : Request)
| EvClose.

Definition is_lookup (e : event) : bool :=
  match e with EvDo _ => true | _ => false end.

Definition is_write (e : event) : bool :=
  match e with EvSet _ _ => true | _ => false end.

Section provider.

Context {S Net : Type} `{!blockTimesRepo S} `{!Runtime Net}.

(** What a call can see and change: the store behind the provider's
    [blockTimesRepo], the network behind its client, and the trace of
    the calls made so far (oldest first). *)
Record World := mkWorld { repo : S; net : Net; log : list event }.

Inductive outcome (A : Type) :=
| Returned (a : A) (w : World)
| Panicked (msg : string) (w : World).
Global Arguments Returned {A} a w.
Global Arguments Panicked {A} msg w.

(** The world a call leaves behind, however it ends. *)
Definition final {A} (o : outcome A) : World :=
  match o with Returned _ w => w | Panicked _ w => w end.

Definition M (A : Type) : Type := World → outcome A.

Definition ret {A} (a : A) : M A := λ w, Returned a w.

Definition bind {A B} (m : M A) (k : A → M B) : M B :=
  λ w, match m w with
       | Returned a w' => k a w'
       | Panicked msg w' => Panicked msg w'
       end.

Definition panic {A} (msg : string) : M A := λ w, Panicked msg w.

Definition emit (e : event) : M unit :=
  λ w, Returned tt (mkWorld (repo w) (net w) (log w ++ [e])).

Notation "'call' x <- m ; k" := (bind m (λ x, k))
  (at level 60, x name, m at next level, right associativity,
   only parsing).
Notation "'call' ' pat <- m ; k" :=
  (bind m (λ x, match x with pat => k end))
  (at level 60, pat pattern, m at next level, right associativity,
   only parsing).

Definition repo_Get (height : uint) : M (Time * bool * error) :=
  λ w, let '(r, s) := Get height (repo w) in
       Returned r (mkWorld s (net w) (log w ++ [EvGet height])).

Definition repo_Set (height : uint) (t : Time) : M error :=
  λ w, let '(r, s) := Set_ height t (repo w) in
       Returned r (mkWorld s (net w) (log w ++ [EvSet height t])).

Definition Do (r : Request) : M (option Response * error) :=
  λ w, let '(x, n) := client_Do r (net w) in
       Returned x (mkWorld (repo w) n (log w ++ [EvDo r])).

(** The request [doRequest] sends once marshalling and building it
    went through. *)
Definition sent (req : Request) : Request :=
  Header_Set req "Content-type" contentTypeJSON.

Definition nilDeref : string :=
  "runtime error: invalid memory address or nil pointer dereference".

(** [doRequest].  The statement [defer resp.Body.Close()] comes before
    the error check and evaluates [resp.Body] at once: with a nil
    [resp] it panics there.  Otherwise the deferred [Close] runs when
    the function returns. *)
Definition doRequest (url : string) (obj : reqObj) : M (bytes * error) :=
  match json_Marshal obj with
  | (_, Some err) => ret ([], Some (Errorf "doRequest: " err))
  | (reqBody, None) =>
    match http_NewRequest MethodPost url reqBody with
    | (_, Some err) => ret ([], Some (Errorf "doRequest: " err))
    | (None, None) => panic nilDeref
    | (Some clientReq, None) =>
      let clientReq := sent clientReq in
      call '(resp, err) <- Do clientReq;
      match resp with
      | None => panic nilDeref
      | Some resp =>
        match err with
        | Some err =>
          call _ <- emit EvClose;
          ret ([], Some (Errorf "doRequest: " err))
        | None =>
          match ReadAll (Body resp) with
          | (_, Some err) =>
            call _ <- emit EvClose;
            ret ([], Some (Errorf "doRequest: " err))
          | (body, None) =>
            call _ <- emit EvClose;
            ret (body, None)
          end
        end
      end
    end
  end.

(** [BlockTime].  The error of [Get] is overwritten by the next
    assignment to [err] without having been read. *)
Definition BlockTime (height : uint) : M (Time * error) :=
  let fail (err : string) : M (Time * error) :=
    ret (zeroTime, Some (Errorf "pocketProvider.BlockTime: " err)) in
  call '(cached, exists_, _) <- repo_Get height;
  if exists_ : bool then ret (cached, None)
  else
    let url := Sprintf_slash pocketEndpoint urlPathGetBlock in
    let blkRequest := {| br_Height := height |} in
    call '(body, err) <- doRequest url (ReqBlock blkRequest);
    match err with
    | Some err => fail err
    | None =>
      match json_Unmarshal_block body with
      | (_, Some err) => fail err
      | (blkResponse, None) =>
        let t := hdr_Time (blk_Header (resp_Block blkResponse)) in
        call err <- repo_Set height t;
        match err with
        | Some err =>
          ret (zeroTime, Some (Errorf "pocketProvider.BlockTime: " err))
        | None => ret (t, None)
        end
      end
    end.

(** The loop of [Node] over [nodeResponse.Chains], from index [i] on:
    the result of [fail(err)] is dropped and [chains[i]] receives
    whatever [ChainFromID] returned. *)
Fixpoint Node_loop (chainTable : gmap string string)
    (fail : string → Node * error)
    (i : nat) (ids : list string) (chains : list Chain) : list Chain :=
  match ids with
  | [] => chains
  | chainID :: rest =>
    let '(ch, err) := ChainFromID chainTable chainID in
    let _ := match err with Some e => Some (fail e) | None => None end in
    Node_loop chainTable fail (Datatypes.S i) rest (<[i := ch]> chains)
  end.

Definition Node (chainTable : gmap string string) (address : string)
  : M (Node * error) :=
  let fail (err : string) : Node * error :=
    (zeroNode, Some (Errorf "pocketProvider.Node: " err)) in
  let url := Sprintf_slash pocketEndpoint urlPathGetNode in
  let nodeRequest := {| qnr_Address := address |} in
  call '(body, err) <- doRequest url (ReqNode nodeRequest);
  match err with
  | Some err => ret (fail err)
  | None =>
    match json_Unmarshal_node body with
    | (_, Some err) => ret (fail err)
    | (nodeResponse, None) =>
      let chains := replicate (length (qn_Chains nodeResponse)) zeroChain in
      let chains := Node_loop chainTable fail 0 (qn_Chains nodeResponse) chains in
      ret (mkNode (qn_Address nodeResponse) "" "" 0
             (qn_StakedBalance nodeResponse) (qn_IsJailed nodeResponse)
             chains false 0 zeroTime, None)
    end
  end.

(** The number of remote lookups in a trace. *)
Definition lookups (l : list event) : nat := length (filter is_lookup l).

(** The number of cache writes in a trace. *)
Definition writes (l : list event) : nat := length (filter is_write l).

(** The world right after the cache read of [BlockTime]. *)
Definition after_Get (height : uint) (s' : S) (w : World) : World :=
  mkWorld s' (net w) (log w ++ [EvGet height]).

(** The world right after a cache write. *)
Definition after_Set (height : uint) (t : Time) (s' : S) (w : World) : World :=
  mkWorld s' (net w) (log w ++ [EvSet height t]).

Definition blockURL : string := Sprintf_slash pocketEndpoint urlPathGetBlock.
Definition nodeURL : string := Sprintf_slash pocketEndpoint urlPathGetNode.

Definition blockTimeOf (r : blockResponse) : Time :=
  hdr_Time (blk_Header (resp_Block r)).

(** A store that keeps what it reports as written and keeps reporting
    what it has once reported. *)
Class LawfulRepo : Prop := {
  get_stable : ∀ height t e s s',
    Get height s = ((t, true, e), s') →
    ∃ e' s'', Get height s' = ((t, true, e'), s'');
  set_get : ∀ height t s s',
    Set_ height t s = (None, s') →
    ∃ e s'', Get height s' = ((t, true, e), s'')
}.

End provider.

Arguments World : clear implicits.
Arguments outcome : clear implicits.
Arguments LawfulRepo S {_}.

(** The store with its read errors silenced. *)
Definition quiet {S} (R : blockTimesRepo S) : blockTimesRepo S := {|
  Get := λ height s,
    let '((t, exists_, _), s') := @Get S R height s in ((t, exists_, None), s');
  Set_ := @Set_ S R
|}.

(** *** A store and a runtime to run the provider on *)

(** Modelled from the spec: the implementation of [blockTimesRepo] is
    not part of the sources at hand.  The cache store is a mapping from
    height to timestamp; [readErr] and [writeErr] make its reads report
    an error and its writes fail. *)
Record store := mkStore {
  entries : gmap Z Time;
  readErr : error;
  writeErr : error
}.

#[export] Instance storeRepo : blockTimesRepo store := {|
  Get := λ height s,
    match entries s !! height with
    | Some t => ((t, true, readErr s), s)
    | None => ((zeroTime, false, readErr s), s)
    end;
  Set_ := λ height t s,
    match writeErr s with
    | Some e => (Some e, s)
    | None => (None, mkStore (<[height := t]> (entries s)) (readErr s) (writeErr s))
    end
|}.

(** A network that answers from a script, one entry per request, and
    refuses the connection once the script is used up; a body of one byte
    [b] decodes to the block time [b], any other body is malformed. *)
Definition scripted : Type := list (option Response * error).

Definition decodeBlock (body : bytes) : blockResponse * error :=
  match body with
  | [b] => ({| resp_Block := {| blk_Header := {| hdr_Time := Z.of_N (Byte.to_N b) |} |} |}, None)
  | _ => ({| resp_Block := {| blk_Header := {| hdr_Time := zeroTime |} |} |},
          Some "unexpected end of JSON input")
  end.

Definition decodeNode (body : bytes) : queryNodeResponse * error :=
  match body with
  | [] => ({| qn_Address := ""; qn_StakedBalance := 0; qn_IsJailed := false;
              qn_Chains := [] |}, Some "unexpected end of JSON input")
  | _ => ({| qn_Address := "f9ab"; qn_StakedBalance := 15000000000;
             qn_IsJailed := false; qn_Chains := ["0001"; "0099"] |}, None)
  end.

#[export] Instance scriptedRuntime : Runtime scripted := {|
  json_Marshal := λ _, ([], None);
  http_NewRequest := λ method url body, (Some (mkRequest method url [] body), None);
  client_Do := λ _ n,
    match n with
    | [] => ((None, Some "dial tcp: connection refused"), [])
    | x :: n' => (x, n')
    end;
  json_Unmarshal_block := decodeBlock;
  json_Unmarshal_node := decodeNode
|}.

Definition ok (body : bytes) : option Response * error :=
  (Some {| Body := {| rc_content := body; rc_err := None |} |}, None).

(** Worlds to run the provider in: height 7 cached by a store whose
    reads report an error; nothing cached and the node answering with
    block time 42; the same with a store that refuses writes; nothing
    cached and the node unreachable; a node answering [Node]. *)
Definition cachedWorld : World store scripted :=
  mkWorld (mkStore {[7 := 1600000000]} (Some "cache: read timeout") None) [] [].

Definition freshWorld : World store scripted :=
  mkWorld (mkStore ∅ None None) [ok [Byte.x2a]; ok [Byte.x2b]] [].

Definition readOnlyWorld : World store scripted :=
  mkWorld (mkStore ∅ None (Some "cache: disk full")) [ok [Byte.x2a]] [].

Definition offlineWorld : World store scripted :=
  mkWorld (mkStore ∅ None None) [] [].

Definition nodeWorld : World store scripted :=
  mkWorld (mkStore ∅ None None) [ok [Byte.x7b]] [].

End Provider.

(** ** Go's sort package *)

Module GoSort.

(** What [sort.Slice] asks of its [less]: a strict weak ordering, given
    here as asymmetry and negative transitivity. *)
Definition StrictWeak {A} (less : A → A → bool) : Prop :=
  (∀ a b, less a b = true → less b a = false) ∧
  (∀ a b c, less a b = false → less b c = false → less a c = false).

(** [sort.Slice] is taken by its contract: the result is a permutation
    of the slice in which no element is [less] than the one before it.
    The sort is not stable, so nothing more is known of it. *)
(** The order a sorted slice is in: no element is [less] than the one
    before it. *)
Definition inOrder {A} (less : A → A → bool) : relation A :=
  λ a b, less b a = false.

Definition Sorts (sort_Slice : ∀ A, (A → A → bool) → list A → list A) : Prop :=
  ∀ A (less : A → A → bool) (l : list A),
    sort_Slice A less l ≡ₚ l ∧
    (StrictWeak less → Sorted (inOrder less) (sort_Slice A less l)).

(** One pass of the inner loop of the package's [insertionSort]: [x]
    moves left past every neighbour it is [less] than.  The elements to
    its left are given nearest first, the result likewise. *)
Fixpoint sink {A} (less : A → A → bool) (x : A) (left : list A) : list A :=
  match left with
  | [] => [x]
  | y :: ys => if less x y then y :: sink less x ys else x :: y :: ys
  end.

(** [insertionSort], the sort the package applies to short slices. *)
Definition insertionSort (A : Type) (less : A → A → bool) (l : list A) : list A :=
  reverse (fold_left (λ sorted x, sink less x sorted) l []).

End GoSort.

(** ** The monitoring endpoints *)

Module Monitoring.

Import Pocket.

Record monthlyRewardsRequest := { mrr_Address : string }.

(** A request reaches an endpoint as [interface{}]: either the type the
    endpoint asserts or something else, kept as its [%v] rendering. *)
Inductive request :=
| IsMonthlyRewardsRequest (r : monthlyRewardsRequest)
| IsOther (rendering : string).

Record chainResponse := mkChainResponse { cr_Name : string; cr_ID : string }.

Record transactionResponse := mkTransactionResponse {
  tr_Hash : string;
  tr_Height : uint;
  tr_Time : Time;
  tr_Type : string;
  tr_ChainID : string;
  tr_Chain : chainResponse;
  tr_SessionHeight : uint;
  tr_ExpireHeight : uint;
  tr_AppPubkey : string;
  tr_NumRelays : uint;
  tr_PoktPerRelay : float64;
  tr_IsConfirmed : bool
}.

Definition zeroTransactionResponse : transactionResponse :=
  mkTransactionResponse "" 0 zeroTime "" "" (mkChainResponse "" "")
    0 0 "" 0 (0 # 1) false.

Record daysOfWeekResponse := mkDaysOfWeekResponse {
  dw_Name : string;
  dw_NumProofs : uint
}.

Record relaysByChain := mkRelaysByChain {
  rbc_Chain : string;
  rbc_Name : string;
  rbc_NumRelays : uint
}.

Record monthlyRewardsResponse := mkMonthlyRewardsResponse {
  mr_Year : uint;
  mr_Month : uint;
  mr_NumRelays : uint;
  mr_PoktAmount : float64;
  mr_RelaysByChain : list relaysByChain;
  mr_AvgSecBetweenRewards : float64;
  mr_TotalSecBetweenRewards : float64;
  mr_Transactions : list transactionResponse;
  mr_DaysOfWeek : gmap Z daysOfWeekResponse
}.

Definition zeroMonthlyRewardsResponse : monthlyRewardsResponse :=
  mkMonthlyRewardsResponse 0 0 0 (0 # 1) [] (0 # 1) (0 # 1) [] ∅.

(** The part of [Service] the endpoint calls.  The months come in the
    order in which the [range] over them visits them. *)
Record Service := { RewardsByMonth : string → list MonthlyReward * error }.

(** Modelled from the spec: the method [PoktAmount] of a month is not
    part of the sources at hand.  It is the sum of each transaction's
    payout, relays times rate. *)
Definition PoktAmount (month : MonthlyReward) : float64 :=
  fold_left (λ acc tx, acc + inject_Z (NumRelays tx) * PoktPerRelay tx)%Q
    (Transactions month) (0 # 1).

(** Modelled from the spec: the method [Chain] of a transaction is not
    part of the sources at hand.  It looks the transaction's chain
    identifier up in the chain table. *)
Definition Transaction_Chain (chains : gmap string string) (tx : Transaction)
  : Chain * error :=
  ChainFromID chains (ChainID tx).

(** *** Timing statistics of a month *)

(** Modelled from the spec: the aggregation that fills
    [AvgSecsBetweenRewards] and [TotalSecsBetweenRewards] is not part of
    the sources at hand.  Over the reward events of the bucket (the
    transactions of type proof) sorted by time, the total is the sum of
    the consecutive gaps in seconds, and the average is the total divided
    by the number of events less one, or 0 below two events. *)
Definition isRewardType (type : string) : bool := bool_decide (type = "proof").

Definition rewardTimes (txs : list Transaction) : list Time :=
  merge_sort Z.le (TxTime <$> filter (λ tx, isRewardType (Type_ tx) = true) txs).

Fixpoint gaps (ts : list Time) : list Z :=
  match ts with
  | a :: (b :: _) as rest => (b - a) :: gaps rest
  | _ => []
  end.

Definition seconds (nanos : Z) : float64 := nanos # 1000000000.

Definition totalSecsBetweenRewards (txs : list Transaction) : float64 :=
  fold_right Qplus (0 # 1) (seconds <$> gaps (rewardTimes txs)).

Definition avgSecsBetweenRewards (txs : list Transaction) : float64 :=
  let count := length (rewardTimes txs) in
  if (count <? 2)%nat then 0 # 1
  else (totalSecsBetweenRewards txs / inject_Z (Z.of_nat count - 1))%Q.

(** A month whose timing fields are the ones the aggregation computes. *)
Definition timingAsSpecified (month : MonthlyReward) : Prop :=
  AvgSecsBetweenRewards month = avgSecsBetweenRewards (Transactions month) ∧
  TotalSecsBetweenRewards month = totalSecsBetweenRewards (Transactions month).

(** *** MonthlyRewardsEndpoint *)

(** The comparison handed to [sort.Slice]. *)
Definition byYearMonthDesc (a b : monthlyRewardsResponse) : bool :=
  if (mr_Year a =? mr_Year b)%Z then (mr_Month b <? mr_Month a)%Z
  else (mr_Year b <? mr_Year a)%Z.

Section endpoint.

(** The static chain table of package pocket. *)
Variable chains : gmap string string.

(** The order in which a [range] over a map visits its entries. *)
Variable rangeMap : gmap string uint → list (string * uint).

Variable sort_Slice : ∀ A, (A → A → bool) → list A → list A.

Definition toTransactionResponse (tx : Transaction) : transactionResponse :=
  let '(chain, _) := Transaction_Chain chains tx in
  {| tr_Hash := Hash tx;
     tr_Height := Height tx;
     tr_Time := TxTime tx;
     tr_Type := Type_ tx;
     tr_ChainID := ChainID tx;
     tr_Chain := {| cr_Name := Chain_Name chain; cr_ID := Chain_ID chain |};
     tr_SessionHeight := SessionHeight tx;
     tr_ExpireHeight := ExpireHeight tx;
     tr_AppPubkey := AppPubkey tx;
     tr_NumRelays := NumRelays tx;
     tr_PoktPerRelay := PoktPerRelay tx;
     tr_IsConfirmed := IsConfirmed tx |}.

(** [byChain[tx.ChainID] += tx.NumRelays], after the entry has been set
    to 0 where it was missing. *)
Definition countRelays (byChain : gmap string uint) (tx : Transaction)
  : gmap string uint :=
  let byChain :=
    match byChain !! ChainID tx with
    | None => <[ChainID tx := 0]> byChain
    | Some _ => byChain
    end in
  <[ChainID tx := uint_add (default 0 (byChain !! ChainID tx)) (NumRelays tx)]>
    byChain.

(** The loop over [month.Transactions], from index [j] on. *)
Fixpoint transactions_loop (j : nat) (txs : list Transaction)
    (byChain : gmap string uint) (out : list transactionResponse)
  : gmap string uint * list transactionResponse :=
  match txs with
  | [] => (byChain, out)
  | tx :: rest =>
    transactions_loop (S j) rest (countRelays byChain tx)
      (<[j := toTransactionResponse tx]> out)
  end.

Definition toRelaysByChain (entry : string * uint) : relaysByChain :=
  let '(ch, num) := entry in
  let byChainResp := mkRelaysByChain ch "" num in
  match ChainFromID chains ch with
  | (_, Some _) => mkRelaysByChain (rbc_Chain byChainResp) ch (rbc_NumRelays byChainResp)
  | (chain, None) =>
    mkRelaysByChain (rbc_Chain byChainResp) (Chain_Name chain) (rbc_NumRelays byChainResp)
  end.

(** The body of the loop over [months]: what [resp[i]] holds when the
    iteration for [month] ends. *)
Definition toResponse (month : MonthlyReward) : monthlyRewardsResponse :=
  let '(byChain, transactions) :=
    transactions_loop 0 (Transactions month) ∅
      (replicate (length (Transactions month)) zeroTransactionResponse) in
  let relays :=
    fold_left (λ acc entry, (acc ++ [toRelaysByChain entry])%list)
      (rangeMap byChain) [] in
  let days :=
    (λ d, mkDaysOfWeekResponse (Day_Name d) (Day_Proofs d)) <$> DaysOfWeek month in
  {| mr_Year := Year month;
     mr_Month := Month month;
     mr_NumRelays := TotalProofs month;
     mr_PoktAmount := PoktAmount month;
     mr_RelaysByChain := relays;
     mr_AvgSecBetweenRewards := AvgSecsBetweenRewards month;
     mr_TotalSecBetweenRewards := TotalSecsBetweenRewards month;
     mr_Transactions := transactions;
     mr_DaysOfWeek := days |}.

(** The loop over [months], from index [i] on. *)
Fixpoint months_loop (i : nat) (months : list MonthlyReward)
    (resp : list monthlyRewardsResponse) : list monthlyRewardsResponse :=
  match months with
  | [] => resp
  | month :: rest => months_loop (S i) rest (<[i := toResponse month]> resp)
  end.

Definition MonthlyRewardsEndpoint (svc : Service) (req : request)
  : option (list monthlyRewardsResponse) * error :=
  let fail (err : string) : option (list monthlyRewardsResponse) * error :=
    (None, Some (Errorf "MonthlyRewardsEndpoint: " err)) in
  match req with
  | IsOther rendering => fail (Errorf "failed to parse request: " rendering)
  | IsMonthlyRewardsRequest req =>
    match RewardsByMonth svc (mrr_Address req) with
    | (_, Some err) => fail err
    | (months, None) =>
      let resp := replicate (length months) zeroMonthlyRewardsResponse in
      let resp := months_loop 0 months resp in
      let resp := sort_Slice _ byYearMonthDesc resp in
      (Some resp, None)
    end
  end.

End endpoint.

(** *** Reading a response *)

Definition yearMonth (r : monthlyRewardsResponse) : Z * Z := (mr_Year r, mr_Month r).

(** [a] is not older than [b]: a later year, or the same year and not an
    earlier month. *)
Definition notOlder (a b : Z * Z) : Prop :=
  a.1 > b.1 ∨ (a.1 = b.1 ∧ a.2 >= b.2).

(** The relays of the transactions of chain [ch], summed as a [uint]. *)
Definition relaysOfChain (ch : string) (txs : list transactionResponse) : uint :=
  foldr Z.add 0 (tr_NumRelays <$> filter (λ t, tr_ChainID t = ch) txs)
    mod uint_modulus.

(** The relays of the transactions of chain [ch] in the bucket of a month,
    summed as a [uint]. *)
Definition relaysOfBucket (ch : string) (txs : list Transaction) : uint :=
  foldr Z.add 0 (NumRelays <$> filter (λ tx, ChainID tx = ch) txs)
    mod uint_modulus.

(** The number of reward events among the transactions of a summary. *)
Definition rewardEvents (txs : list transactionResponse) : nat :=
  length (filter (λ t, isRewardType (tr_Type t) = true) txs).

(** *** Months to run the endpoint on *)

Definition proofTx (hash : string) (height : uint) (time : Time)
    (chain : string) (relays : uint) : Transaction :=
  mkTransaction hash height time "proof" chain height (height + 4)
    "a7f3" relays (1 # 100) true.

(** A month as the aggregation fills it from the transactions of its
    bucket. *)
Definition bucket (year month : uint) (txs : list Transaction) : MonthlyReward :=
  mkMonthlyReward year month
    (fold_left (λ acc tx, uint_add acc (NumRelays tx)) txs 0)
    (avgSecsBetweenRewards txs) (totalSecsBetweenRewards txs) txs
    {[1 := mkDayOfWeek "Monday" (Z.of_nat (length txs))]}.

Definition january2023 : MonthlyReward :=
  bucket 2023 1
    [proofTx "a1" 81000 63808300800000000000 "0001" 100;
     proofTx "a2" 81010 63808301700000000000 "0099" 250;
     proofTx "a3" 81020 63808303500000000000 "0099" 50].

Definition december2022 : MonthlyReward :=
  bucket 2022 12 [proofTx "d1" 80000 63807000000000000000 "0099" 7].

Definition march2023 : MonthlyReward := bucket 2023 3 [].

Definition someRequest : request :=
  IsMonthlyRewardsRequest {| mrr_Address := "f9ab" |}.

Definition threeMonths : Service :=
  {| RewardsByMonth := λ _, ([january2023; december2022; march2023], None) |}.

End Monitoring.

(** ** The other queries of the provider *)

Module Queries.

Import Pocket Provider.

Definition urlPathGetAccountTransactions : string := "/query/accounttxs".
Definition urlPathGetTransaction : string := "/query/tx".
Definition urlPathGetBalance : string := "/query/balance".

Record balanceRequest := { bal_Address : string }.
Record balanceResponse := { bal_Balance : uint }.
Record transactionRequest := { txq_Hash : string }.

Record accountTransactionsRequest := {
  atq_Address : string;
  atq_Height : uint;
  atq_Page : uint;
  atq_PerPage : uint;
  atq_Sort : string
}.

(** The request objects of these queries, handed to [doRequest] as
    [interface{}]. *)
Inductive queryObj :=
| ReqBalance (r : balanceRequest)
| ReqTransaction (r : transactionRequest)
| ReqAccountTransactions (r : accountTransactionsRequest).

(** [pocket.Transaction{}] *)
Definition zeroTransaction : Transaction :=
  mkTransaction "" 0 zeroTime "" "" 0 0 "" 0 (0 # 1) false.

(** The library calls of these queries, and the method [Transaction] of
    the provider's own transaction record [Raw], neither of which is part
    of the sources at hand: [json.Marshal] at the request objects,
    [json.Unmarshal] at the three response types (an account's response
    holds its list of records), and the conversion of a record. *)
Class QueryRuntime (Raw : Type) := {
  json_Marshal_query : queryObj → bytes * error;
  json_Unmarshal_balance : bytes → balanceResponse * error;
  json_Unmarshal_transaction : bytes → Raw * error;
  json_Unmarshal_accountTransactions : bytes → list Raw * error;
  raw_Transaction : Raw → Transaction * error
}.

Section queries.

Context {S Net Raw : Type} `{!Runtime Net} `{!QueryRuntime Raw}.

Notation "'call' ' pat <- m ; k" :=
  (bind m (λ x, match x with pat => k end))
  (at level 60, pat pattern, m at next level, right associativity,
   only parsing).

(** [doRequest] from the marshalled request object on: the same
    statements, for a request object of any type. *)
Definition doRequest_marshalled (url : string) (marshalled : bytes * error)
  : M (S := S) (Net := Net) (bytes * error) :=
  match marshalled with
  | (_, Some err) => ret ([], Some (Errorf "doRequest: " err))
  | (reqBody, None) =>
    match http_NewRequest MethodPost url reqBody with
    | (_, Some err) => ret ([], Some (Errorf "doRequest: " err))
    | (None, None) => panic nilDeref
    | (Some clientReq, None) =>
      let clientReq := sent clientReq in
      call '(resp, err) <- Do clientReq;
      match resp with
      | None => panic nilDeref
      | Some resp =>
        match err with
        | Some err =>
          bind (emit EvClose) (λ _, ret ([], Some (Errorf "doRequest: " err)))
        | None =>
          match ReadAll (Body resp) with
          | (_, Some err) =>
            bind (emit EvClose) (λ _, ret ([], Some (Errorf "doRequest: " err)))
          | (body, None) =>
            bind (emit EvClose) (λ _, ret (body, None))
          end
        end
      end
    end
  end.

Definition doQuery (url : string) (obj : queryObj) : M (bytes * error) :=
  doRequest_marshalled url (json_Marshal_query obj).

Definition Balance (address : string) : M (S := S) (Net := Net) (uint * error) :=
  let fail (err : string) : uint * error :=
    (0, Some (Errorf "pocketProvider.Balance: " err)) in
  let url := Sprintf_slash pocketEndpoint urlPathGetBalance in
  let balRequest := {| bal_Address := address |} in
  call '(body, err) <- doQuery url (ReqBalance balRequest);
  match err with
  | Some err => ret (fail err)
  | None =>
    match json_Unmarshal_balance body with
    | (_, Some err) => ret (fail err)
    | (balResponse, None) => ret (bal_Balance balResponse, None)
    end
  end.

Definition Transaction (hash : string)
  : M (S := S) (Net := Net) (Pocket.Transaction * error) :=
  let fail (err : string) : Pocket.Transaction * error :=
    (zeroTransaction, Some (Errorf "pocketProvider.Transaction: " err)) in
  let url := Sprintf_slash pocketEndpoint urlPathGetTransaction in
  let txRequest := {| txq_Hash := hash |} in
  call '(body, err) <- doQuery url (ReqTransaction txRequest);
  match err with
  | Some err => ret (fail err)
  | None =>
    match json_Unmarshal_transaction body with
    | (_, Some err) => ret (fail err)
    | (txnResponse, None) =>
      match raw_Transaction txnResponse with
      | (_, Some err) => ret (fail err)
      | (txn, None) => ret (txn, None)
      end
    end
  end.

(** The loop of [AccountTransactions] over the records of the response:
    the first record that does not convert ends the call. *)
Fixpoint AccountTransactions_loop (fail : string → list Pocket.Transaction * error)
    (records : list Raw) (transactions : list Pocket.Transaction)
  : list Pocket.Transaction * error :=
  match records with
  | [] => (transactions, None)
  | t :: rest =>
    match raw_Transaction t with
    | (_, Some err) => fail err
    | (txn, None) =>
      AccountTransactions_loop fail rest (transactions ++ [txn])%list
    end
  end.

Definition AccountTransactions (address : string) (page perPage : uint)
    (sort : string)
  : M (S := S) (Net := Net) (list Pocket.Transaction * error) :=
  let fail (err : string) : list Pocket.Transaction * error :=
    ([], Some (Errorf "pocketProvider.AccountTransactions: " err)) in
  let url := Sprintf_slash pocketEndpoint urlPathGetAccountTransactions in
  let txsRequest :=
    {| atq_Address := address; atq_Height := 0; atq_Page := page;
       atq_PerPage := perPage; atq_Sort := sort |} in
  call '(body, err) <- doQuery url (ReqAccountTransactions txsRequest);
  match err with
  | Some err => ret (fail err)
  | None =>
    match json_Unmarshal_accountTransactions body with
    | (_, Some err) => ret (fail err)
    | (records, None) => ret (AccountTransactions_loop fail records [])
    end
  end.

End queries.

(** A runtime to run the queries on: a record is a pair of a hash and a
    relay count, and one with a negative count does not convert; a body
    of [n] bytes decodes to [n] records, and the empty body to the
    balance 0. *)
Definition rawOfByte (b : Byte.byte) : string * Z :=
  ("tx", Z.of_N (Byte.to_N b) - 100).

Definition convertRaw (r : string * Z) : Pocket.Transaction * error :=
  if (r.2 <? 0)%Z then (zeroTransaction, Some "invalid relay count")
  else (mkTransaction r.1 0 zeroTime "proof" "0001" 0 0 "" r.2 (0 # 1) false,
        None).

#[export] Instance scriptedQueries : QueryRuntime (string * Z) := {|
  json_Marshal_query := λ _, ([], None);
  json_Unmarshal_balance := λ body,
    ({| bal_Balance := Z.of_nat (length body) |}, None);
  json_Unmarshal_transaction := λ body,
    match body with
    | [b] => (rawOfByte b, None)
    | _ => (("", 0), Some "unexpected end of JSON input")
    end;
  json_Unmarshal_accountTransactions := λ body, (rawOfByte <$> body, None);
  raw_Transaction := convertRaw
|}.

(** A node answering three records, the second of which does not
    convert. *)
Definition historyWorld : World store scripted :=
  mkWorld (mkStore ∅ None None) [ok [Byte.x65; Byte.x01; Byte.x66]] [].

End Queries.

(** ** The other endpoints *)

Module Endpoints.

Import Pocket Monitoring.

Record heightResponse := { hr_Height : uint }.
Record blockTimesRequest := { btq_Heights : list uint }.
Record paramsRequest := { prq_Height : Z }.
Record transactionRequest := { trq_Hash : string }.

Record accountTransactionsRequest := {
  arq_Address : string;
  arq_Page : uint;
  arq_PerPage : uint;
  arq_Sort : string
}.

(** A [map[string]interface{}] is nil or a map. *)
Record relayRequest (Payload : Type) := mkRelayRequest {
  rr_ServicerURL : string;
  rr_ChainID : string;
  rr_Payload : option Payload
}.
Arguments mkRelayRequest {Payload} _ _ _.
Arguments rr_ServicerURL {Payload} _.
Arguments rr_ChainID {Payload} _.
Arguments rr_Payload {Payload} _.

Record nodeRequest := { nq_Address : string }.

Record nodeResponse := mkNodeResponse {
  nr_Address : string;
  nr_Pubkey : string;
  nr_ServiceURL : string;
  nr_Balance : uint;
  nr_StakedBalance : uint;
  nr_IsJailed : bool;
  nr_Chains : list chainResponse;
  nr_IsSynced : bool;
  nr_LatestBlockHeight : uint;
  nr_LatestBlockTime : Time
}.

(** A request as it reaches an endpoint, an [interface{}]: a value of one
    of the request types, or of some other type. *)
Inductive anyRequest (Payload : Type) :=
| OfBlockTimes (r : blockTimesRequest)
| OfParams (r : paramsRequest)
| OfTransaction (r : transactionRequest)
| OfAccountTransactions (r : accountTransactionsRequest)
| OfRelay (r : relayRequest Payload)
| OfNode (r : nodeRequest)
| OfOther (rendering : string).
Arguments OfBlockTimes {Payload} r.
Arguments OfParams {Payload} r.
Arguments OfTransaction {Payload} r.
Arguments OfAccountTransactions {Payload} r.
Arguments OfRelay {Payload} r.
Arguments OfNode {Payload} r.
Arguments OfOther {Payload} rendering.

(** The methods of [Service] these endpoints call, by their results. *)
Record ServiceAPI (Params Relay Payload : Type) := {
  svc_Height : uint * error;
  svc_Node : string → Node * error;
  svc_Transaction : string → Transaction * error;
  svc_AccountTransactions :
    string → uint → uint → string → list Transaction * error;
  svc_BlockTimes : list uint → gmap Z Time * error;
  svc_ParamsAtHeight : Z → Params * error;
  svc_SimulateRelay : string → string → option Payload → Relay * error
}.
Arguments svc_Height {Params Relay Payload} _.
Arguments svc_Node {Params Relay Payload} _ _.
Arguments svc_Transaction {Params Relay Payload} _ _.
Arguments svc_AccountTransactions {Params Relay Payload} _ _ _ _ _.
Arguments svc_BlockTimes {Params Relay Payload} _ _.
Arguments svc_ParamsAtHeight {Params Relay Payload} _ _.
Arguments svc_SimulateRelay {Params Relay Payload} _ _ _ _.

(** [relayRequest.validate]; [errors.Newf] gives an error with the
    message. *)
Definition validate {Payload} (req : relayRequest Payload) : error :=
  if decide (rr_ServicerURL req = "") then
    Some "relayRequest.validate: Missing required param 'servicer_url"
  else if decide (rr_ChainID req = "") then
    Some "relayRequest.validate: Missing required param 'chain_id"
  else match rr_Payload req with
       | None => Some "relayRequest.validate: Missing required param 'payload"
       | Some _ => None
       end.

Section endpoints.

Context {Params Relay Payload : Type}.

(** [fmt]'s rendering of a request under [%v]. *)
Variable Sprint_v : anyRequest Payload → string.

Implicit Types (svc : ServiceAPI Params Relay Payload)
  (request : anyRequest Payload).

Definition HeightEndpoint svc request : option heightResponse * error :=
  match svc_Height svc with
  | (_, Some err) => (None, Some (Errorf "HeightEndpoint: " err))
  | (height, None) => (Some {| hr_Height := height |}, None)
  end.

Definition BlockTimesEndpoint svc request : option (gmap Z Time) * error :=
  let fail (err : string) : option (gmap Z Time) * error :=
    (None, Some (Errorf "BlockTimesEndpoint: " err)) in
  match request with
  | OfBlockTimes req =>
    match svc_BlockTimes svc (btq_Heights req) with
    | (_, Some err) => fail err
    | (blocks, None) => (Some blocks, None)
    end
  | _ => fail (Errorf "failed to parse request: " (Sprint_v request))
  end.

Definition ParamsEndpoint svc request : option Params * error :=
  let fail (err : string) : option Params * error :=
    (None, Some (Errorf "ParamsEndpoint: " err)) in
  match request with
  | OfParams req =>
    match svc_ParamsAtHeight svc (prq_Height req) with
    | (_, Some err) => fail err
    | (params, None) => (Some params, None)
    end
  | _ => fail (Errorf "failed to parse request: " (Sprint_v request))
  end.

Definition TransactionEndpoint svc request
  : option transactionResponse * error :=
  let fail (err : string) : option transactionResponse * error :=
    (None, Some (Errorf "TransactionEndpoint: " err)) in
  match request with
  | OfTransaction req =>
    match svc_Transaction svc (trq_Hash req) with
    | (_, Some err) => fail err
    | (txn, None) =>
      (Some {| tr_Hash := Hash txn;
               tr_Height := Height txn;
               tr_Time := TxTime txn;
               tr_Type := Type_ txn;
               tr_ChainID := ChainID txn;
               tr_Chain := mkChainResponse "" "";
               tr_SessionHeight := 0;
               tr_ExpireHeight := 0;
               tr_AppPubkey := "";
               tr_NumRelays := NumRelays txn;
               tr_PoktPerRelay := PoktPerRelay txn;
               tr_IsConfirmed := false |}, None)
    end
  | _ => fail (Errorf "failed to parse request: " (Sprint_v request))
  end.

(** An entry of the response of [AccountTransactionsEndpoint]. *)
Definition accountEntry (tx : Transaction) : transactionResponse :=
  {| tr_Hash := Hash tx;
     tr_Height := Height tx;
     tr_Time := TxTime tx;
     tr_Type := Type_ tx;
     tr_ChainID := ChainID tx;
     tr_Chain := mkChainResponse "" "";
     tr_SessionHeight := SessionHeight tx;
     tr_ExpireHeight := ExpireHeight tx;
     tr_AppPubkey := AppPubkey tx;
     tr_NumRelays := NumRelays tx;
     tr_PoktPerRelay := PoktPerRelay tx;
     tr_IsConfirmed := false |}.

(** The loop of [AccountTransactionsEndpoint] over [txs], from index [i]
    on. *)
Fixpoint accountEntries_loop (i : nat) (txs : list Transaction)
    (txsResponse : list transactionResponse) : list transactionResponse :=
  match txs with
  | [] => txsResponse
  | tx :: rest =>
    accountEntries_loop (S i) rest (<[i := accountEntry tx]> txsResponse)
  end.

Definition AccountTransactionsEndpoint svc request
  : option (list transactionResponse) * error :=
  let fail (err : string) : option (list transactionResponse) * error :=
    (None, Some (Errorf "AccountTransactionsEndpoint: " err)) in
  match request with
  | OfAccountTransactions req =>
    match svc_AccountTransactions svc (arq_Address req) (arq_Page req)
            (arq_PerPage req) (arq_Sort req) with
    | (_, Some err) => fail err
    | (txs, None) =>
      let txsResponse := replicate (length txs) zeroTransactionResponse in
      (Some (accountEntries_loop 0 txs txsResponse), None)
    end
  | _ => fail (Errorf "failed to parse request: " (Sprint_v request))
  end.

Definition SimulateRelayEndpoint svc request : option Relay * error :=
  let fail (err : string) : option Relay * error :=
    (None, Some (Errorf "SimulateRelayEndpoint: " err)) in
  match request with
  | OfRelay req =>
    match validate req with
    | Some err => fail err
    | None =>
      match svc_SimulateRelay svc (rr_ServicerURL req) (rr_ChainID req)
              (rr_Payload req) with
      | (_, Some err) => fail err
      | (res, None) => (Some res, None)
      end
    end
  | _ =>
    fail (Errorf "SimulateRelayEndpoint failed to parse request: "
            (Sprint_v request))
  end.

(** The loop of [NodeEndpoint] over [node.Chains], from index [i] on. *)
Fixpoint nodeChains_loop (i : nat) (cs : list Chain)
    (chains : list chainResponse) : list chainResponse :=
  match cs with
  | [] => chains
  | c :: rest =>
    nodeChains_loop (S i) rest
      (<[i := mkChainResponse (Chain_Name c) (Chain_ID c)]> chains)
  end.

Definition NodeEndpoint svc request : option nodeResponse * error :=
  let fail (err : string) : option nodeResponse * error :=
    (None, Some (Errorf "NodeEndpoint: " err)) in
  match request with
  | OfNode req =>
    match svc_Node svc (nq_Address req) with
    | (_, Some err) => fail err
    | (node, None) =>
      let chains :=
        replicate (length (Node_Chains node)) (mkChainResponse "" "") in
      let chains := nodeChains_loop 0 (Node_Chains node) chains in
      (Some {| nr_Address := Node_Address node;
               nr_Pubkey := Node_Pubkey node;
               nr_ServiceURL := Node_ServiceURL node;
               nr_Balance := Node_Balance node;
               nr_StakedBalance := Node_StakedBalance node;
               nr_IsJailed := Node_IsJailed node;
               nr_Chains := chains;
               nr_IsSynced := Node_IsSynced node;
               nr_LatestBlockHeight := Node_LatestBlockHeight node;
               nr_LatestBlockTime := Node_LatestBlockTime node |}, None)
    end
  | _ => fail (Errorf "failed to parse request: " (Sprint_v request))
  end.

End endpoints.

(** A relay request with everything in place, and a service to answer
    it. *)
Definition fullRelay : relayRequest (list (string * string)) :=
  mkRelayRequest "https://node-000.pokt.gaagl.com" "0001"
    (Some [("method", "eth_blockNumber")]).

Definition echoService : ServiceAPI string string (list (string * string)) := {|
  svc_Height := (81020, None);
  svc_Node := λ address,
    (mkNode address "" "" 0 15000000000 false
       [mkChain "Pocket Network Mainnet" "0001"; zeroChain] false 0 zeroTime,
     None);
  svc_Transaction := λ hash,
    (proofTx hash 81000 63808300800000000000 "0001" 100, None);
  svc_AccountTransactions := λ address page perPage sort,
    ([proofTx "a1" 81000 63808300800000000000 "0001" 100;
      proofTx "a2" 81010 63808301700000000000 "0099" 250], None);
  svc_BlockTimes := λ heights, (∅, None);
  svc_ParamsAtHeight := λ height, ("params", None);
  svc_SimulateRelay := λ url chain payload, ("0x13c8c", None)
|}.

End Endpoints.

(** ** More worlds, services and requests to run the code on *)

Module Runs.

Import Pocket Provider Queries Monitoring Endpoints.

(** The node answers, but reading the body breaks off. *)
Definition truncatedWorld : World store scripted :=
  mkWorld (mkStore ∅ None None)
    [(Some {| Body := {| rc_content := [Byte.x2a];
                         rc_err := Some "unexpected EOF" |} |}, None)] [].

(** The node answers with a body that does not parse as a block. *)
Definition garbledWorld : World store scripted :=
  mkWorld (mkStore ∅ None None) [ok []] [].

(** The node answers two records, both of which convert. *)
Definition cleanHistoryWorld : World store scripted :=
  mkWorld (mkStore ∅ None None) [ok [Byte.x65; Byte.x66]] [].

Definition downService : Service :=
  {| RewardsByMonth := λ _, ([], Some "pocket: node unreachable") |}.

Definition relayWithoutChain : relayRequest (list (string * string)) :=
  mkRelayRequest "https://node-000.pokt.gaagl.com" ""
    (Some [("method", "eth_blockNumber")]).

End Runs.

(** * Properties of the provider *)

Module ProviderFacts.

Import Pocket Provider.
Local Open Scope list_scope.

Section facts.

Context {S Net : Type} `{!blockTimesRepo S} `{!Runtime Net}.

Implicit Types (w : World S Net) (height : uint).

Lemma lookups_app (l1 l2 : list event) :
  lookups (l1 ++ l2) = (lookups l1 + lookups l2)%nat.
Proof. unfold lookups. by rewrite filter_app, length_app. Qed.

Lemma writes_app (l1 l2 : list event) :
  writes (l1 ++ l2) = (writes l1 + writes l2)%nat.
Proof. unfold writes. by rewrite filter_app, length_app. Qed.

(** [doRequest] by cases on what the client's [Do] yields. *)
Lemma doRequest_Do url obj w reqBody req resp err n :
  json_Marshal obj = (reqBody, None) →
  http_NewRequest MethodPost url reqBody = (Some req, None) →
  client_Do (sent req) (net w) = ((resp, err), n) →
  let w' := mkWorld (repo w) n (log w ++ [EvDo (sent req)]) in
  let closed := mkWorld (repo w) n ((log w ++ [EvDo (sent req)]) ++ [EvClose]) in
  doRequest url obj w =
    match resp with
    | None => Panicked nilDeref w'
    | Some resp =>
      match err with
      | Some e => Returned ([], Some (Errorf "doRequest: " e)) closed
      | None =>
        match ReadAll (Body resp) with
        | (_, Some e) => Returned ([], Some (Errorf "doRequest: " e)) closed
        | (body, None) => Returned (body, None) closed
        end
      end
    end.
Proof.
  intros Hm Hn Hd. unfold doRequest. rewrite Hm, Hn.
  unfold bind, Do, sent in *. rewrite Hd.
  destruct resp as [resp|]; [|done].
  destruct err as [e|]; [done|].
  destruct (ReadAll (Body resp)) as [body [e|]]; done.
Qed.

(** [doRequest] never touches the store: it leaves [repo] alone, writes
    nothing, and asks the network at most once. *)
Lemma doRequest_frame url obj w :
  let w' := final (doRequest url obj w) in
  repo w' = repo w ∧
  ∃ l, log w' = log w ++ l ∧ writes l = 0%nat ∧ (lookups l ≤ 1)%nat.
Proof.
  unfold doRequest.
  destruct (json_Marshal obj) as [reqBody [e|]].
  { simpl. split; [done|]. exists []. rewrite app_nil_r.
    repeat split. unfold lookups; simpl; lia. }
  destruct (http_NewRequest MethodPost url reqBody) as [[req|] [e|]];
    try (simpl; split; [done|]; exists []; rewrite app_nil_r;
         repeat split; unfold lookups; simpl; lia).
  unfold bind, Do. destruct (client_Do _ (net w)) as [[resp err] n].
  destruct resp as [resp|].
  - destruct err as [e|]; [|destruct (ReadAll (Body resp)) as [body [e|]]].
    all: simpl; split; [done|].
    all: exists [EvDo (sent req); EvClose].
    all: rewrite <- app_assoc; simpl.
    all: split; [reflexivity|split; [done|]].
    all: cbv; lia.
  - simpl. split; [done|]. exists [EvDo (sent req)].
    split; [reflexivity|]. split; [done|]. cbv; lia.
Qed.

(** [BlockTime] on a cache hit. *)
Lemma BlockTime_hit height w cached e s' :
  Get height (repo w) = ((cached, true, e), s') →
  BlockTime height w = Returned (cached, None) (after_Get height s' w).
Proof.
  intros Hg. unfold BlockTime, bind, repo_Get. by rewrite Hg.
Qed.

(** [BlockTime] on a cache miss, by cases on the remote lookup and on
    the cache write. *)
Lemma BlockTime_miss height w cached e s' :
  Get height (repo w) = ((cached, false, e), s') →
  BlockTime height w =
    match doRequest blockURL (ReqBlock {| br_Height := height |})
            (after_Get height s' w) with
    | Panicked msg w2 => Panicked msg w2
    | Returned (_, Some err) w2 =>
      Returned (zeroTime, Some (Errorf "pocketProvider.BlockTime: " err)) w2
    | Returned (body, None) w2 =>
      match json_Unmarshal_block body with
      | (_, Some err) =>
        Returned (zeroTime, Some (Errorf "pocketProvider.BlockTime: " err)) w2
      | (blk, None) =>
        match Set_ height (blockTimeOf blk) (repo w2) with
        | (Some err, s2) =>
          Returned (zeroTime, Some (Errorf "pocketProvider.BlockTime: " err))
            (after_Set height (blockTimeOf blk) s2 w2)
        | (None, s2) =>
          Returned (blockTimeOf blk, None)
            (after_Set height (blockTimeOf blk) s2 w2)
        end
      end
    end.
Proof.
  intros Hg. unfold BlockTime, bind, repo_Get. rewrite Hg.
  fold blockURL. unfold after_Get.
  destruct (doRequest _ _ _) as [[body [err|]] w2|msg w2]; try done.
  destruct (json_Unmarshal_block body) as [blk [err|]]; try done.
  unfold repo_Set, blockTimeOf, after_Set.
  destruct (Set_ _ _ _) as [[err|] s2]; done.
Qed.

(** A remote lookup that returned a body asked the network once and
    closed the response. *)
Lemma doRequest_success url obj w body w2 :
  doRequest url obj w = Returned (body, None) w2 →
  ∃ req, log w2 = log w ++ [EvDo req; EvClose].
Proof.
  unfold doRequest.
  destruct (json_Marshal obj) as [reqBody [e|]]; [done|].
  destruct (http_NewRequest MethodPost url reqBody) as [[req|] [e|]]; try done.
  unfold bind, Do. destruct (client_Do _ (net w)) as [[resp err] n].
  destruct resp as [resp|]; [|done].
  destruct err as [e|]; [done|].
  destruct (ReadAll (Body resp)) as [body' [e|]]; [done|].
  unfold emit, ret. simpl. intros [= <- <-]. simpl.
  exists (sent req). by rewrite <- app_assoc.
Qed.

(** A remote lookup that returned left the store alone and asked the
    network exactly once. *)
Lemma doRequest_returned url obj w r w2 :
  doRequest url obj w = Returned r w2 →
  repo w2 = repo w ∧
  (snd r = None → lookups (log w2) = Datatypes.S (lookups (log w))) ∧
  (lookups (log w2) ≤ Datatypes.S (lookups (log w)))%nat ∧
  writes (log w2) = writes (log w).
Proof.
  intros Hr. pose proof (doRequest_frame url obj w) as Hf.
  rewrite Hr in Hf. simpl in Hf. destruct Hf as [Hrepo [l [Hl [Hw Hk]]]].
  split; [done|]. rewrite Hl, lookups_app, writes_app, Hw.
  split; [|split; lia].
  intros Hnone. revert Hr Hl. unfold doRequest.
  destruct (json_Marshal obj) as [reqBody [e|]];
    [intros [= <- <-]; done|].
  destruct (http_NewRequest MethodPost url reqBody) as [[req|] [e|]];
    try (intros [= <- <-]; done); try done.
  unfold bind, Do. destruct (client_Do _ (net w)) as [[resp err] n].
  destruct resp as [resp|]; [|done].
  destruct err as [e|]; [intros [= <- <-]; done|].
  destruct (ReadAll (Body resp)) as [body [e|]];
    [intros [= <- <-]; done|].
  unfold emit, ret. simpl. intros [= <- <-]. simpl.
  rewrite <- (app_assoc (log w)). intros <-%app_inv_head.
  assert (lookups ([EvDo (sent req)] ++ [EvClose]) = 1%nat) as -> by reflexivity.
  lia.
Qed.

(** C1.  [BlockTime] consults the cache first.  When the cache has an
    entry for the height, it returns the cached timestamp at once and
    makes no remote lookup.  When it has none, it makes the remote
    lookup, stores the fetched timestamp under that height and, the store
    having taken it, returns it. *)
Theorem BlockTime_cache_first height w :
  (∀ cached e s',
     Get height (repo w) = ((cached, true, e), s') →
     BlockTime height w = Returned (cached, None) (after_Get height s' w) ∧
     log (after_Get height s' w) = log w ++ [EvGet height] ∧
     lookups (log (after_Get height s' w)) = lookups (log w)) ∧
  (∀ cached e s' body w2 blk serr s2,
     Get height (repo w) = ((cached, false, e), s') →
     doRequest blockURL (ReqBlock {| br_Height := height |})
       (after_Get height s' w) = Returned (body, None) w2 →
     json_Unmarshal_block body = (blk, None) →
     Set_ height (blockTimeOf blk) s' = (serr, s2) →
     let w' := after_Set height (blockTimeOf blk) s2 w2 in
     final (BlockTime height w) = w' ∧
     repo w' = s2 ∧
     (∃ sent, log w' = log w ++ [EvGet height; EvDo sent; EvClose;
                                 EvSet height (blockTimeOf blk)]) ∧
     lookups (log w') = Datatypes.S (lookups (log w)) ∧
     (serr = None → BlockTime height w = Returned (blockTimeOf blk, None) w')).
Proof.
  split.
  - intros cached e s' Hg. split; [by eapply BlockTime_hit|].
    split; [done|]. simpl. rewrite lookups_app. cbv [lookups filter]. simpl. lia.
  - intros cached e s' body w2 blk serr s2 Hg Hd Hu Hs w'.
    destruct (doRequest_returned _ _ _ _ _ Hd) as [Hrepo [Hone _]].
    destruct (doRequest_success _ _ _ _ _ Hd) as [req Hlog].
    simpl in Hrepo.
    rewrite (BlockTime_miss _ _ _ _ _ Hg), Hd, Hu, Hrepo, Hs.
    split; [by destruct serr|]. split; [done|]. split.
    { exists req. subst w'. simpl. rewrite Hlog. simpl.
      by rewrite <- !app_assoc. }
    split; [|by intros ->].
    subst w'. simpl. rewrite lookups_app, (Hone eq_refl). simpl.
    rewrite lookups_app. cbv [lookups filter]. simpl. lia.
Qed.

(** C2, as the code has it.  When the remote lookup has succeeded and
    the cache write fails, [BlockTime] fails: it returns the zero time
    and the error of [Set] behind its own prefix, not the fetched
    timestamp. *)
Theorem BlockTime_Set_failure_is_fatal height w cached e s' body w2 blk err s2 :
  Get height (repo w) = ((cached, false, e), s') →
  doRequest blockURL (ReqBlock {| br_Height := height |})
    (after_Get height s' w) = Returned (body, None) w2 →
  json_Unmarshal_block body = (blk, None) →
  Set_ height (blockTimeOf blk) s' = (Some err, s2) →
  BlockTime height w =
    Returned (zeroTime, Some (Errorf "pocketProvider.BlockTime: " err))
      (after_Set height (blockTimeOf blk) s2 w2).
Proof.
  intros Hg Hd Hu Hs.
  destruct (doRequest_returned _ _ _ _ _ Hd) as [Hrepo _]. simpl in Hrepo.
  by rewrite (BlockTime_miss _ _ _ _ _ Hg), Hd, Hu, Hrepo, Hs.
Qed.

(** C4.  With a store that keeps what it reports as written, resolving
    a height twice, the first call succeeding, returns the same
    timestamp both times, and the two calls together make at most one
    remote lookup: the second call makes none. *)
Theorem BlockTime_twice height w t w1 :
  LawfulRepo S →
  BlockTime height w = Returned (t, None) w1 →
  ∃ w2, BlockTime height w1 = Returned (t, None) w2 ∧
        lookups (log w2) = lookups (log w1) ∧
        (lookups (log w2) ≤ Datatypes.S (lookups (log w)))%nat.
Proof.
  intros Hlaw H1.
  assert (∀ s1 (u : World S Net) e' s'',
             Get height s1 = ((t, true, e'), s'') → repo u = s1 →
             BlockTime height u = Returned (t, None) (after_Get height s'' u) ∧
             lookups (log (after_Get height s'' u)) = lookups (log u)) as Hagain.
  { intros s1 u e' s'' Hg <-. split; [by eapply BlockTime_hit|].
    simpl. rewrite lookups_app. cbv [lookups filter]. simpl. lia. }
  destruct (Get height (repo w)) as [[[cached [|]] e] s'] eqn:Hg.
  - rewrite (BlockTime_hit _ _ _ _ _ Hg) in H1. injection H1 as -> <-.
    destruct (get_stable _ _ _ _ _ Hg) as [e' [s'' Hg']].
    destruct (Hagain s' (after_Get height s' w) e' s'' Hg' eq_refl) as [Hb Hl].
    eexists. split; [exact Hb|]. split; [exact Hl|]. rewrite Hl.
    simpl. rewrite lookups_app. cbv [lookups filter]. simpl. lia.
  - rewrite (BlockTime_miss _ _ _ _ _ Hg) in H1.
    destruct (doRequest _ _ _) as [[body [err|]] w2|msg w2] eqn:Hd; try done.
    destruct (json_Unmarshal_block body) as [blk [err|]]; try done.
    destruct (Set_ _ _ _) as [[err|] s2] eqn:Hs; try done.
    injection H1 as <- <-.
    destruct (set_get _ _ _ _ Hs) as [e' [s'' Hg']].
    destruct (Hagain s2 (after_Set height (blockTimeOf blk) s2 w2) e' s'' Hg' eq_refl)
      as [Hb Hl].
    eexists. split; [exact Hb|]. split; [exact Hl|]. rewrite Hl.
    destruct (doRequest_returned _ _ _ _ _ Hd) as [_ [_ [Hle _]]].
    simpl in *. rewrite lookups_app in *.
    assert (lookups [EvSet height (blockTimeOf blk)] = 0%nat) as -> by reflexivity.
    assert (lookups [EvGet height] = 0%nat) as Hz by reflexivity.
    rewrite Hz in Hle. lia.
Qed.

(** C5, at the input on which the code departs from it.  On a cache
    miss, when the client's [Do] reports a network error, and so hands
    back a nil response, [BlockTime] does not return an error: it
    panics inside [doRequest].  The store is as the cache read left it
    and nothing has been written. *)
Theorem BlockTime_network_error_panics height w cached e s' reqBody req err n :
  Get height (repo w) = ((cached, false, e), s') →
  json_Marshal (ReqBlock {| br_Height := height |}) = (reqBody, None) →
  http_NewRequest MethodPost blockURL reqBody = (Some req, None) →
  client_Do (sent req) (net w) = ((None, Some err), n) →
  ∃ w', BlockTime height w = Panicked nilDeref w' ∧
        repo w' = s' ∧ writes (log w') = writes (log w).
Proof.
  intros Hg Hm Hn Hd.
  rewrite (BlockTime_miss _ _ _ _ _ Hg).
  rewrite (doRequest_Do blockURL _ (after_Get height s' w) _ _ _ _ _ Hm Hn Hd).
  eexists. split; [reflexivity|]. split; [done|].
  simpl. rewrite !writes_app. cbv [writes filter]. simpl. lia.
Qed.

(** The rest of C5: a lookup that comes back with an error, or with a
    body that does not parse, makes [BlockTime] return an error, and
    nothing is written to the store. *)
Lemma BlockTime_failed_lookup height w cached e s' r w2 :
  Get height (repo w) = ((cached, false, e), s') →
  doRequest blockURL (ReqBlock {| br_Height := height |})
    (after_Get height s' w) = Returned r w2 →
  (is_Some (snd r) ∨ is_Some (snd (json_Unmarshal_block (fst r)))) →
  ∃ err, BlockTime height w =
           Returned (zeroTime, Some (Errorf "pocketProvider.BlockTime: " err)) w2 ∧
         repo w2 = s' ∧ writes (log w2) = writes (log w).
Proof.
  intros Hg Hd Hfail.
  destruct (doRequest_returned _ _ _ _ _ Hd) as [Hrepo [_ [_ Hw]]].
  rewrite (BlockTime_miss _ _ _ _ _ Hg), Hd.
  simpl in Hrepo, Hw. rewrite writes_app in Hw.
  assert (writes [EvGet height] = 0%nat) as Hz by reflexivity.
  destruct r as [body [err|]].
  - exists err. split; [done|]. split; [done|]. lia.
  - destruct Hfail as [[? [=]]|Hu]. simpl in Hu.
    destruct (json_Unmarshal_block body) as [blk [err|]].
    + exists err. split; [done|]. split; [done|]. lia.
    + by destruct Hu.
Qed.

(** C9.  On a request that reaches the client's [Do]: when [Do] hands
    back a nil response (as it does with a transport error), the
    [defer resp.Body.Close()] before the error check dereferences it
    and [doRequest] panics instead of returning the error; and
    [doRequest] returns at all, an error included, only when [Do]
    yields a non-nil response. *)
Theorem doRequest_nil_response_panics url obj w reqBody req :
  json_Marshal obj = (reqBody, None) →
  http_NewRequest MethodPost url reqBody = (Some req, None) →
  (∀ err n,
     client_Do (sent req) (net w) = ((None, err), n) →
     doRequest url obj w =
       Panicked nilDeref (mkWorld (repo w) n (log w ++ [EvDo (sent req)]))) ∧
  (∀ r w',
     doRequest url obj w = Returned r w' →
     ∃ resp, fst (fst (client_Do (sent req) (net w))) = Some resp) ∧
  (∀ resp err n,
     client_Do (sent req) (net w) = ((Some resp, Some err), n) →
     ∃ w', doRequest url obj w =
             Returned ([], Some (Errorf "doRequest: " err)) w').
Proof.
  intros Hm Hn. split; [|split].
  - intros err n Hd. by rewrite (doRequest_Do _ _ _ _ _ _ _ _ Hm Hn Hd).
  - intros r w' Hr.
    destruct (client_Do (sent req) (net w)) as [[resp err] n] eqn:Hd.
    rewrite (doRequest_Do _ _ _ _ _ _ _ _ Hm Hn Hd) in Hr.
    destruct resp as [resp|]; [by exists resp|done].
  - intros resp err n Hd.
    rewrite (doRequest_Do _ _ _ _ _ _ _ _ Hm Hn Hd). by eexists.
Qed.

(** The other ways in which [doRequest] returns an error come before
    [Do] is called. *)
Lemma doRequest_early_error url obj w :
  (∀ b err, json_Marshal obj = (b, Some err) →
     doRequest url obj w = Returned ([], Some (Errorf "doRequest: " err)) w) ∧
  (∀ reqBody r err, json_Marshal obj = (reqBody, None) →
     http_NewRequest MethodPost url reqBody = (r, Some err) →
     doRequest url obj w = Returned ([], Some (Errorf "doRequest: " err)) w).
Proof.
  split.
  - intros b err Hm. unfold doRequest. by rewrite Hm.
  - intros reqBody r err Hm Hn. unfold doRequest. rewrite Hm, Hn. by destruct r.
Qed.

(** The loop of [Node] fills [chains] with what [ChainFromID] returns
    for each identifier, error or not. *)
Lemma Node_loop_fills table fail ids (pre : list Chain) :
  Node_loop table fail (length pre) ids (pre ++ replicate (length ids) zeroChain)
  = pre ++ ((λ id, fst (ChainFromID table id)) <$> ids).
Proof.
  revert pre. induction ids as [|id ids IH]; intros pre; simpl.
  - done.
  - destruct (ChainFromID table id) as [ch err] eqn:Hc. simpl.
    rewrite insert_app_r_alt by lia. rewrite Nat.sub_diag. simpl.
    specialize (IH (pre ++ [ch])).
    rewrite length_app, Nat.add_1_r, <- app_assoc in IH. simpl in IH.
    by rewrite IH, <- app_assoc.
Qed.

(** C7, at the input on which the code departs from it.  When the node
    answers with a chain identifier that has no entry in the chain
    table, [Node] succeeds and the entry of that chain is the zero
    [Chain], with an empty name: the raw identifier is not used. *)
Theorem Node_unknown_chain_zero_entry table address w body w2 nr i id :
  doRequest nodeURL (ReqNode {| qnr_Address := address |}) w
    = Returned (body, None) w2 →
  json_Unmarshal_node body = (nr, None) →
  qn_Chains nr !! i = Some id →
  table !! id = None →
  ∃ node, Node table address w = Returned (node, None) w2 ∧
          Node_Chains node !! i = Some zeroChain ∧
          (id ≠ "" → Chain_Name <$> Node_Chains node !! i ≠ Some id).
Proof.
  intros Hd Hu Hi Ht. unfold Node, bind. fold nodeURL. rewrite Hd, Hu.
  eexists. split; [reflexivity|]. simpl.
  rewrite (Node_loop_fills table _ (qn_Chains nr) []). simpl.
  rewrite list_lookup_fmap, Hi. simpl.
  unfold ChainFromID. rewrite Ht. simpl. split; [done|].
  intros Hne [= Heq]. by apply Hne.
Qed.

End facts.

(** The store of the fixtures keeps what it reports as written. *)
Lemma storeRepo_lawful : LawfulRepo store.
Proof.
  split.
  - intros height t e s s'. simpl.
    destruct (entries s !! height) as [t'|] eqn:Hl; [|done].
    intros [= -> <- <-]. exists (readErr s), s. by rewrite Hl.
  - intros height t s s'. simpl.
    destruct (writeErr s) as [e|]; [done|]. intros [= <-]. simpl.
    rewrite lookup_insert_eq. by eexists _, _.
Qed.

(** C10.  An error of the cache read never makes [BlockTime] fail: the
    call runs as it does on the store with its read errors silenced.  An
    entry that exists is returned as a success whatever error came with
    it, and without one the resolution goes on to the remote lookup. *)
Theorem BlockTime_ignores_Get_error {S Net} (R : blockTimesRepo S)
    `{!Runtime Net} (height : uint) (w : World S Net) :
  @BlockTime S Net R _ height w = @BlockTime S Net (quiet R) _ height w ∧
  (∀ cached e s',
     @Get S R height (repo w) = ((cached, true, e), s') →
     @BlockTime S Net R _ height w
       = Returned (cached, None) (after_Get height s' w)) ∧
  (∀ cached e s' body w2 blk s2,
     @Get S R height (repo w) = ((cached, false, e), s') →
     doRequest blockURL (ReqBlock {| br_Height := height |})
       (after_Get height s' w) = Returned (body, None) w2 →
     json_Unmarshal_block body = (blk, None) →
     @Set_ S R height (blockTimeOf blk) (repo w2) = (None, s2) →
     @BlockTime S Net R _ height w
       = Returned (blockTimeOf blk, None)
           (after_Set height (blockTimeOf blk) s2 w2)).
Proof.
  split; [|split].
  - destruct (@Get S R height (repo w)) as [[[cached ex] e] s'] eqn:Hg.
    assert (@Get S (quiet R) height (repo w) = ((cached, ex, None), s')) as Hq.
    { simpl. by rewrite Hg. }
    destruct ex.
    + by rewrite (@BlockTime_hit S Net R _ _ _ _ _ _ Hg),
                 (@BlockTime_hit S Net (quiet R) _ _ _ _ _ _ Hq).
    + by rewrite (@BlockTime_miss S Net R _ _ _ _ _ _ Hg),
                 (@BlockTime_miss S Net (quiet R) _ _ _ _ _ _ Hq).
  - intros cached e s' Hg. by eapply BlockTime_hit.
  - intros cached e s' body w2 blk s2 Hg Hd Hu Hs.
    by rewrite (@BlockTime_miss S Net R _ _ _ _ _ _ Hg), Hd, Hu, Hs.
Qed.

(** *** The provider run on the fixtures *)

Lemma BlockTime_cache_first_witness :
  BlockTime 7 cachedWorld
    = Returned (1600000000, None) (after_Get 7 (repo cachedWorld) cachedWorld) ∧
  ∃ w', BlockTime 7 freshWorld = Returned (42, None) w' ∧
        lookups (log w') = 1%nat.
Proof.
  split.
  - apply (proj1 (BlockTime_cache_first 7 cachedWorld)
             1600000000 (Some "cache: read timeout") (repo cachedWorld)).
    reflexivity.
  - edestruct (proj2 (BlockTime_cache_first 7 freshWorld)) as (_ & _ & _ & Hl & Hb).
    + vm_compute; reflexivity.
    + vm_compute; reflexivity.
    + vm_compute; reflexivity.
    + vm_compute; reflexivity.
    + eexists. split; [exact (Hb eq_refl) | exact Hl].
Defined.

(** C2, refuted as stated: the node answers height 7 with block time 42,
    the store refuses the write, and [BlockTime] does not return 42 but
    fails. *)
Lemma BlockTime_Set_failure_counterexample :
  ∃ body w2 blk,
    doRequest blockURL (ReqBlock {| br_Height := 7 |})
      (after_Get 7 (repo readOnlyWorld) readOnlyWorld) = Returned (body, None) w2 ∧
    json_Unmarshal_block body = (blk, None) ∧
    blockTimeOf blk = 42 ∧
    (¬ ∃ w', BlockTime 7 readOnlyWorld = Returned (blockTimeOf blk, None) w') ∧
    ∃ w', BlockTime 7 readOnlyWorld =
            Returned (zeroTime, Some "pocketProvider.BlockTime: cache: disk full") w'.
Proof.
  eexists _, _, _. split; [vm_compute; reflexivity|].
  split; [vm_compute; reflexivity|]. split; [reflexivity|]. split.
  - intros [w' H]. vm_compute in H. discriminate H.
  - eexists. vm_compute. reflexivity.
Qed.

Lemma BlockTime_Set_failure_is_fatal_witness :
  ∃ w', BlockTime 7 readOnlyWorld =
          Returned (zeroTime, Some (Errorf "pocketProvider.BlockTime: " "cache: disk full")) w'.
Proof.
  eexists.
  eapply (BlockTime_Set_failure_is_fatal 7 readOnlyWorld).
  - vm_compute; reflexivity.
  - vm_compute; reflexivity.
  - vm_compute; reflexivity.
  - vm_compute; reflexivity.
Defined.

Lemma BlockTime_twice_witness :
  ∃ w1 w2, BlockTime 7 freshWorld = Returned (42, None) w1 ∧
           BlockTime 7 w1 = Returned (42, None) w2 ∧
           (lookups (log w2) ≤ 1)%nat.
Proof.
  eexists.
  edestruct (BlockTime_twice 7 freshWorld 42) as [w2 [H2 [_ Hle]]].
  - exact storeRepo_lawful.
  - vm_compute; reflexivity.
  - exists w2. split; [vm_compute; reflexivity|]. split; [exact H2 | exact Hle].
Defined.

Lemma BlockTime_network_error_panics_witness :
  ∃ w', BlockTime 7 offlineWorld = Panicked nilDeref w' ∧
        repo w' = repo offlineWorld ∧ writes (log w') = 0%nat.
Proof.
  eapply (BlockTime_network_error_panics 7 offlineWorld).
  - vm_compute; reflexivity.
  - vm_compute; reflexivity.
  - vm_compute; reflexivity.
  - vm_compute; reflexivity.
Defined.

Lemma doRequest_nil_response_panics_witness :
  ∃ w', doRequest blockURL (ReqBlock {| br_Height := 7 |}) offlineWorld
          = Panicked nilDeref w'.
Proof.
  edestruct (doRequest_nil_response_panics blockURL
               (ReqBlock {| br_Height := 7 |}) offlineWorld) as [Hp _].
  - vm_compute; reflexivity.
  - vm_compute; reflexivity.
  - eexists. eapply Hp. vm_compute; reflexivity.
Defined.

Lemma Node_unknown_chain_zero_entry_witness :
  ∃ node w', Node mainnetOnly "f9ab" nodeWorld = Returned (node, None) w' ∧
             Node_Chains node !! 1%nat = Some zeroChain ∧
             Chain_Name <$> Node_Chains node !! 1%nat ≠ Some "0099".
Proof.
  edestruct (Node_unknown_chain_zero_entry mainnetOnly "f9ab" nodeWorld)
    as [node [Hn [Hz Hne]]].
  - vm_compute; reflexivity.
  - vm_compute; reflexivity.
  - instantiate (2 := 1%nat). vm_compute; reflexivity.
  - vm_compute; reflexivity.
  - exists node. eexists. split; [exact Hn|]. split; [exact Hz|].
    apply Hne. discriminate.
Defined.

Lemma BlockTime_ignores_Get_error_witness :
  BlockTime 7 cachedWorld
    = Returned (1600000000, None) (after_Get 7 (repo cachedWorld) cachedWorld).
Proof.
  apply (proj1 (proj2 (BlockTime_ignores_Get_error storeRepo 7 cachedWorld))
           1600000000 (Some "cache: read timeout") (repo cachedWorld)).
  reflexivity.
Defined.

End ProviderFacts.

(** * Properties of the sort *)

Module GoSortFacts.

Import GoSort.
Local Open Scope list_scope.

Section sorting.

Context {A : Type} (less : A → A → bool).

Lemma sink_Permutation x l : sink less x l ≡ₚ x :: l.
Proof.
  induction l as [|y ys IH]; simpl; [done|].
  destruct (less x y); [|done].
  rewrite IH. apply Permutation_swap.
Qed.

Lemma sink_HdRel x y ys :
  less y x = false →
  HdRel (flip (inOrder less)) y ys →
  HdRel (flip (inOrder less)) y (sink less x ys).
Proof.
  intros Hyx Hhd. destruct Hhd as [|z zs Hz]; simpl.
  - by constructor.
  - destruct (less x z); by constructor.
Qed.

Lemma sink_Sorted x l :
  (∀ a b, less a b = true → less b a = false) →
  Sorted (flip (inOrder less)) l → Sorted (flip (inOrder less)) (sink less x l).
Proof.
  intros Hasym. induction 1 as [|y ys Hs IH Hhd]; simpl.
  - repeat constructor.
  - destruct (less x y) eqn:Hxy.
    + constructor; [done|]. apply sink_HdRel; [by apply Hasym|done].
    + repeat constructor; done.
Qed.

Lemma insertion_fold_Permutation l acc :
  fold_left (λ sorted x, sink less x sorted) l acc ≡ₚ acc ++ l.
Proof.
  revert acc. induction l as [|x l IH]; intros acc; simpl.
  - by rewrite app_nil_r.
  - rewrite IH, sink_Permutation. simpl. apply Permutation_middle.
Qed.

Lemma insertion_fold_Sorted l acc :
  (∀ a b, less a b = true → less b a = false) →
  Sorted (flip (inOrder less)) acc →
  Sorted (flip (inOrder less)) (fold_left (λ sorted x, sink less x sorted) l acc).
Proof.
  intros Hasym. revert acc. induction l as [|x l IH]; intros acc Hs; simpl.
  - done.
  - apply IH. by apply sink_Sorted.
Qed.

(** Under a strict weak ordering, being in order is transitive. *)
Lemma inOrder_Transitive : StrictWeak less → Transitive (inOrder less).
Proof.
  intros [_ Hneg] a b c Hab Hbc. unfold inOrder in *. by eapply Hneg.
Qed.

Lemma inOrder_StronglySorted l :
  StrictWeak less → Sorted (inOrder less) l → StronglySorted (inOrder less) l.
Proof.
  intros Hsw. apply Sorted_StronglySorted. by apply inOrder_Transitive.
Qed.

End sorting.

(** The insertion sort of the package meets the contract of
    [sort.Slice]. *)
Lemma insertionSort_Sorts : Sorts insertionSort.
Proof.
  intros A less l. unfold insertionSort. split.
  - rewrite reverse_Permutation. apply (insertion_fold_Permutation less l []).
  - intros [Hasym _].
    pose proof (insertion_fold_Sorted less l [] Hasym (Sorted_nil _)) as Hs.
    apply Sorted_reverse in Hs. exact Hs.
Qed.

End GoSortFacts.

(** * Properties of the monthly-rewards endpoint *)

Module MonitoringFacts.

Import Pocket GoSort GoSortFacts Monitoring.
Local Open Scope list_scope.

Lemma byYearMonthDesc_StrictWeak : StrictWeak byYearMonthDesc.
Proof.
  split.
  - intros a b. unfold byYearMonthDesc.
    destruct (Z.eqb_spec (mr_Year a) (mr_Year b)) as [Heq|Hne].
    + rewrite Heq, Z.eqb_refl. intros ?%Z.ltb_lt. apply Z.ltb_ge. lia.
    + destruct (Z.eqb_spec (mr_Year b) (mr_Year a)); [congruence|].
      intros ?%Z.ltb_lt. apply Z.ltb_ge. lia.
  - intros a b c. unfold byYearMonthDesc.
    destruct (Z.eqb_spec (mr_Year a) (mr_Year b)),
             (Z.eqb_spec (mr_Year b) (mr_Year c)),
             (Z.eqb_spec (mr_Year a) (mr_Year c));
      rewrite ?Z.ltb_ge; lia.
Qed.

(** Being in the order of [byYearMonthDesc] is being not older. *)
Lemma inOrder_notOlder a b :
  inOrder byYearMonthDesc a b → notOlder (yearMonth a) (yearMonth b).
Proof.
  unfold inOrder, byYearMonthDesc, notOlder, yearMonth. simpl.
  destruct (Z.eqb_spec (mr_Year b) (mr_Year a)); rewrite Z.ltb_ge; lia.
Qed.

#[local] Instance notOlder_AntiSymm : AntiSymm (=) notOlder.
Proof.
  intros [y1 m1] [y2 m2]. unfold notOlder. simpl. intros H1 H2.
  f_equal; lia.
Qed.

Section endpoint.

Variable chains : gmap string string.
Variable rangeMap : gmap string uint → list (string * uint).
Variable sort_Slice : ∀ A, (A → A → bool) → list A → list A.

Local Abbreviation toResponse := (toResponse chains rangeMap).
Local Abbreviation MonthlyRewardsEndpoint :=
  (MonthlyRewardsEndpoint chains rangeMap sort_Slice).

Lemma months_loop_fills months (pre : list monthlyRewardsResponse) :
  months_loop chains rangeMap (length pre) months
    (pre ++ replicate (length months) zeroMonthlyRewardsResponse)
  = pre ++ (toResponse <$> months).
Proof.
  revert pre. induction months as [|m months IH]; intros pre; simpl.
  - done.
  - rewrite insert_app_r_alt by lia. rewrite Nat.sub_diag. simpl.
    specialize (IH (pre ++ [toResponse m])).
    rewrite length_app, Nat.add_1_r, <- app_assoc in IH. simpl in IH.
    by rewrite IH, <- app_assoc.
Qed.

Lemma transactions_loop_fills txs byChain (pre : list transactionResponse) :
  transactions_loop chains (length pre) txs byChain
    (pre ++ replicate (length txs) zeroTransactionResponse)
  = (fold_left countRelays txs byChain,
     pre ++ (toTransactionResponse chains <$> txs)).
Proof.
  revert byChain pre. induction txs as [|tx txs IH]; intros byChain pre; simpl.
  - by rewrite app_nil_r.
  - rewrite insert_app_r_alt by lia. rewrite Nat.sub_diag. simpl.
    specialize (IH (countRelays byChain tx) (pre ++ [toTransactionResponse chains tx])).
    rewrite length_app, Nat.add_1_r, <- app_assoc in IH. simpl in IH.
    by rewrite IH, <- app_assoc.
Qed.

Lemma append_loop {B C} (f : B → C) (l : list B) (acc : list C) :
  fold_left (λ acc entry, acc ++ [f entry]) l acc = acc ++ (f <$> l).
Proof.
  revert acc. induction l as [|x l IH]; intros acc; simpl.
  - by rewrite app_nil_r.
  - by rewrite IH, <- app_assoc.
Qed.

(** What the endpoint returns when the service has answered. *)
Lemma MonthlyRewardsEndpoint_ok svc req months :
  RewardsByMonth svc (mrr_Address req) = (months, None) →
  MonthlyRewardsEndpoint svc (IsMonthlyRewardsRequest req)
  = (Some (sort_Slice _ byYearMonthDesc (toResponse <$> months)), None).
Proof.
  intros Hsvc. unfold Monitoring.MonthlyRewardsEndpoint. rewrite Hsvc.
  pose proof (months_loop_fills months []) as Hloop. simpl in Hloop.
  by rewrite Hloop.
Qed.

Lemma toResponse_fields month :
  mr_Year (toResponse month) = Year month ∧
  mr_Month (toResponse month) = Month month ∧
  mr_AvgSecBetweenRewards (toResponse month) = AvgSecsBetweenRewards month ∧
  mr_TotalSecBetweenRewards (toResponse month) = TotalSecsBetweenRewards month ∧
  mr_Transactions (toResponse month)
    = (toTransactionResponse chains <$> Transactions month) ∧
  mr_RelaysByChain (toResponse month)
    = (toRelaysByChain chains <$>
         rangeMap (fold_left countRelays (Transactions month) ∅)).
Proof.
  unfold Monitoring.toResponse.
  pose proof (transactions_loop_fills (Transactions month) ∅ []) as Hloop.
  simpl in Hloop. rewrite Hloop. simpl.
  by rewrite append_loop.
Qed.

(** C3.  The summaries the endpoint returns are those of the months of
    the service, sorted descending by year and, within a year, descending
    by month.  For months keyed (2023, 1), (2022, 12) and (2023, 3), in
    whatever order they come, the order returned is (2023, 3), (2023, 1),
    (2022, 12). *)
Theorem MonthlyRewards_most_recent_first svc req months :
  Sorts sort_Slice →
  RewardsByMonth svc (mrr_Address req) = (months, None) →
  ∃ resp,
    MonthlyRewardsEndpoint svc (IsMonthlyRewardsRequest req) = (Some resp, None) ∧
    StronglySorted notOlder (yearMonth <$> resp) ∧
    yearMonth <$> resp ≡ₚ (λ m, (Year m, Month m)) <$> months ∧
    ((λ m, (Year m, Month m)) <$> months ≡ₚ [(2023, 1); (2022, 12); (2023, 3)] →
     yearMonth <$> resp = [(2023, 3); (2023, 1); (2022, 12)]).
Proof.
  intros Hsort Hsvc.
  exists (sort_Slice _ byYearMonthDesc (toResponse <$> months)).
  split; [by apply MonthlyRewardsEndpoint_ok|].
  destruct (Hsort _ byYearMonthDesc (toResponse <$> months)) as [Hperm Hsorted].
  assert (StronglySorted notOlder
            (yearMonth <$> sort_Slice _ byYearMonthDesc (toResponse <$> months)))
    as Hdesc.
  { apply (StronglySorted_fmap _ (inOrder byYearMonthDesc)).
    - apply inOrder_notOlder.
    - apply inOrder_StronglySorted; [apply byYearMonthDesc_StrictWeak|].
      apply Hsorted, byYearMonthDesc_StrictWeak. }
  assert (yearMonth <$> sort_Slice _ byYearMonthDesc (toResponse <$> months)
          ≡ₚ (λ m, (Year m, Month m)) <$> months) as Hkeys.
  { rewrite Hperm, <- list_fmap_compose.
    rewrite (list_fmap_ext _ (λ m, (Year m, Month m)) months); [done|].
    intros i m _. unfold yearMonth. simpl.
    destruct (toResponse_fields m) as [-> [-> _]]. done. }
  split; [done|]. split; [done|].
  intros Hthree. apply (StronglySorted_unique notOlder); [done| |].
  - repeat constructor; unfold notOlder; simpl; lia.
  - rewrite Hkeys, Hthree.
    symmetry. apply (Permutation_cons_append [(2023, 1); (2022, 12)] (2023, 3)).
Qed.

(** **** Relays by chain *)

Lemma countRelays_lookup_eq byChain tx :
  countRelays byChain tx !! ChainID tx
  = Some (uint_add (default 0 (byChain !! ChainID tx)) (NumRelays tx)).
Proof.
  unfold countRelays.
  destruct (byChain !! ChainID tx) as [n|] eqn:Hl.
  - rewrite lookup_insert_eq. by rewrite Hl.
  - by rewrite !lookup_insert_eq.
Qed.

Lemma countRelays_lookup_ne byChain tx ch :
  ChainID tx ≠ ch → countRelays byChain tx !! ch = byChain !! ch.
Proof.
  intros Hne. unfold countRelays. rewrite lookup_insert_ne by done.
  destruct (byChain !! ChainID tx); [done|]. by rewrite lookup_insert_ne.
Qed.

(** After the loop, the entry of a chain is the wrapped sum of the relays
    of its transactions, on top of what the map held; a chain without
    transactions keeps its entry, or has none. *)
Lemma countRelays_fold_lookup txs byChain ch :
  fold_left countRelays txs byChain !! ch =
    match filter (λ tx, ChainID tx = ch) txs with
    | [] => byChain !! ch
    | matching =>
      Some ((default 0 (byChain !! ch) + foldr Z.add 0 (NumRelays <$> matching))
              mod uint_modulus)
    end.
Proof.
  revert byChain. induction txs as [|tx txs IH]; intros byChain; [done|].
  simpl. rewrite IH, filter_cons. destruct (decide (ChainID tx = ch)) as [Heq|Hne].
  - subst ch. rewrite countRelays_lookup_eq. simpl. unfold uint_add.
    destruct (filter _ txs) as [|tx' rest]; simpl.
    + by rewrite Z.add_0_r.
    + f_equal. rewrite Zplus_mod_idemp_l. f_equal. lia.
  - by rewrite countRelays_lookup_ne.
Qed.

Lemma toTransactionResponse_fields tx :
  tr_ChainID (toTransactionResponse chains tx) = ChainID tx ∧
  tr_NumRelays (toTransactionResponse chains tx) = NumRelays tx ∧
  tr_Type (toTransactionResponse chains tx) = Type_ tx.
Proof.
  unfold toTransactionResponse. by destruct (Transaction_Chain chains tx).
Qed.

Lemma relaysOfChain_responses ch txs :
  relaysOfChain ch (toTransactionResponse chains <$> txs)
  = foldr Z.add 0 (NumRelays <$> filter (λ tx, ChainID tx = ch) txs)
      mod uint_modulus.
Proof.
  unfold relaysOfChain. f_equal. f_equal.
  induction txs as [|tx txs IH]; [done|].
  rewrite fmap_cons, !filter_cons.
  destruct (toTransactionResponse_fields tx) as [Hc [Hn _]]. rewrite Hc.
  destruct (decide (ChainID tx = ch)); [|done].
  by rewrite !fmap_cons, Hn, IH.
Qed.

Lemma toRelaysByChain_unknown ch num :
  chains !! ch = None →
  toRelaysByChain chains (ch, num) = mkRelaysByChain ch ch num.
Proof.
  intros Hnone. unfold toRelaysByChain, ChainFromID. by rewrite Hnone.
Qed.

Lemma toRelaysByChain_Chain entry :
  rbc_Chain (toRelaysByChain chains entry) = entry.1 ∧
  rbc_NumRelays (toRelaysByChain chains entry) = entry.2.
Proof.
  destruct entry as [ch num]. unfold toRelaysByChain.
  by destruct (ChainFromID chains ch) as [chain [err|]].
Qed.

(** The summaries returned are the conversions of the months. *)
Lemma response_of_month resp r months :
  Sorts sort_Slice →
  resp = sort_Slice _ byYearMonthDesc (toResponse <$> months) →
  r ∈ resp → ∃ month, r = toResponse month ∧ month ∈ months.
Proof.
  intros Hsort -> Hr.
  destruct (Hsort _ byYearMonthDesc (toResponse <$> months)) as [Hperm _].
  rewrite Hperm in Hr. by apply list_elem_of_fmap in Hr.
Qed.

Lemma relaysOfChain_bucket ch txs :
  relaysOfChain ch (toTransactionResponse chains <$> txs) = relaysOfBucket ch txs.
Proof. apply relaysOfChain_responses. Qed.

(** The entry of an identifier without a table entry in the summary built
    for a month. *)
Lemma toResponse_unknown_chain month ch :
  (∀ m, rangeMap m ≡ₚ map_to_list m) →
  chains !! ch = None →
  (∃ tx, tx ∈ Transactions month ∧ ChainID tx = ch) →
  mkRelaysByChain ch ch (relaysOfBucket ch (Transactions month))
    ∈ mr_RelaysByChain (toResponse month) ∧
  ∀ e, e ∈ mr_RelaysByChain (toResponse month) → rbc_Chain e = ch →
       e = mkRelaysByChain ch ch (relaysOfBucket ch (Transactions month)).
Proof.
  intros Hrange Hnone [tx [Htx Hch]].
  destruct (toResponse_fields month) as (_ & _ & _ & _ & _ & ->).
  set (byChain := fold_left countRelays (Transactions month) ∅).
  assert (byChain !! ch = Some (relaysOfBucket ch (Transactions month)))
    as Hlook.
  { unfold byChain, relaysOfBucket. rewrite countRelays_fold_lookup.
    assert (tx ∈ filter (λ tx, ChainID tx = ch) (Transactions month)) as Hin
      by (by apply list_elem_of_filter).
    destruct (filter _ (Transactions month)) as [|tx' rest];
      [by apply not_elem_of_nil in Hin|].
    by rewrite lookup_empty. }
  split.
  - apply list_elem_of_fmap.
    exists (ch, relaysOfBucket ch (Transactions month)).
    split; [by rewrite toRelaysByChain_unknown|].
    rewrite Hrange. by apply elem_of_map_to_list.
  - intros e He Hech. apply list_elem_of_fmap in He as [[k v] [-> Hkv]].
    destruct (toRelaysByChain_Chain (k, v)) as [Hk _]. rewrite Hk in Hech.
    simpl in Hech. subst k.
    rewrite Hrange in Hkv. apply elem_of_map_to_list in Hkv.
    rewrite Hlook in Hkv. injection Hkv as <-.
    by rewrite toRelaysByChain_unknown.
Qed.

(** C6.  A chain identifier without an entry in the chain table (such as
    "0099") does not fail the request.  Every month whose bucket has a
    transaction of that chain has its summary in the response, under its
    year and month, and there [relays_by_chain] has an entry whose chain
    and name are both the identifier and whose relays are the sum, as a
    [uint], of the relays of the bucket's transactions of that chain; it
    is the only entry of that chain.  The same holds of every summary
    returned, read by its own transactions. *)
Theorem unknown_chain_named_by_id svc req months ch :
  Sorts sort_Slice →
  (∀ m, rangeMap m ≡ₚ map_to_list m) →
  chains !! ch = None →
  RewardsByMonth svc (mrr_Address req) = (months, None) →
  ∃ resp,
    MonthlyRewardsEndpoint svc (IsMonthlyRewardsRequest req) = (Some resp, None) ∧
    (∀ month, month ∈ months →
       (∃ tx, tx ∈ Transactions month ∧ ChainID tx = ch) →
       ∃ r, r ∈ resp ∧
         mr_Year r = Year month ∧ mr_Month r = Month month ∧
         relaysOfChain ch (mr_Transactions r)
           = relaysOfBucket ch (Transactions month) ∧
         let entry :=
           mkRelaysByChain ch ch (relaysOfBucket ch (Transactions month)) in
         entry ∈ mr_RelaysByChain r ∧
         ∀ e, e ∈ mr_RelaysByChain r → rbc_Chain e = ch → e = entry) ∧
    (∀ r, r ∈ resp →
       (∃ t, t ∈ mr_Transactions r ∧ tr_ChainID t = ch) →
       let entry := mkRelaysByChain ch ch (relaysOfChain ch (mr_Transactions r)) in
       entry ∈ mr_RelaysByChain r ∧
       ∀ e, e ∈ mr_RelaysByChain r → rbc_Chain e = ch → e = entry).
Proof.
  intros Hsort Hrange Hnone Hsvc.
  exists (sort_Slice _ byYearMonthDesc (toResponse <$> months)).
  split; [by apply MonthlyRewardsEndpoint_ok|].
  destruct (Hsort _ byYearMonthDesc (toResponse <$> months)) as [Hperm _].
  split.
  - intros month Hin Htx. exists (toResponse month).
    split; [rewrite Hperm; by apply list_elem_of_fmap_2|].
    destruct (toResponse_fields month) as (Hy & Hm & _ & _ & Htxs & _).
    split; [done|]. split; [done|].
    split; [by rewrite Htxs, relaysOfChain_bucket|].
    by apply toResponse_unknown_chain.
  - intros r Hr [t [Ht Hch]] entry. subst entry.
    destruct (response_of_month _ r months Hsort eq_refl Hr) as [month [-> _]].
    destruct (toResponse_fields month) as (_ & _ & _ & _ & Htxs & _).
    rewrite Htxs in Ht |- *. rewrite relaysOfChain_bucket.
    apply list_elem_of_fmap in Ht as [tx [-> Htx]].
    destruct (toTransactionResponse_fields tx) as [Hc _]. rewrite Hc in Hch.
    apply toResponse_unknown_chain; eauto.
Qed.

(** **** Timing statistics *)

Lemma rewardEvents_responses txs :
  rewardEvents (toTransactionResponse chains <$> txs)
  = length (filter (λ tx, isRewardType (Type_ tx) = true) txs).
Proof.
  unfold rewardEvents. induction txs as [|tx txs IH]; [done|].
  rewrite fmap_cons, !filter_cons.
  destruct (toTransactionResponse_fields tx) as (_ & _ & ->).
  destruct (decide (isRewardType (Type_ tx) = true)); simpl; by rewrite IH.
Qed.

Lemma rewardTimes_length txs :
  length (rewardTimes txs)
  = length (filter (λ tx, isRewardType (Type_ tx) = true) txs).
Proof.
  unfold rewardTimes.
  rewrite (Permutation_length (merge_sort_Permutation _ _)).
  apply length_fmap.
Qed.

Lemma gaps_short ts : (length ts < 2)%nat → gaps ts = [].
Proof. destruct ts as [|a [|b ts]]; simpl; [done|done|lia]. Qed.

(** C8.  With months whose timing fields are those the aggregation
    computes, every summary returned that has fewer than two reward-event
    transactions, none or one, has 0 as its average and as its total of
    seconds between rewards. *)
Theorem few_rewards_zero_timing svc req months :
  Sorts sort_Slice →
  RewardsByMonth svc (mrr_Address req) = (months, None) →
  (∀ month, month ∈ months → timingAsSpecified month) →
  ∃ resp,
    MonthlyRewardsEndpoint svc (IsMonthlyRewardsRequest req) = (Some resp, None) ∧
    ∀ r, r ∈ resp →
      (rewardEvents (mr_Transactions r) < 2)%nat →
      mr_AvgSecBetweenRewards r = 0 # 1 ∧ mr_TotalSecBetweenRewards r = 0 # 1.
Proof.
  intros Hsort Hsvc Hspec.
  exists (sort_Slice _ byYearMonthDesc (toResponse <$> months)).
  split; [by apply MonthlyRewardsEndpoint_ok|].
  intros r Hr Hfew.
  destruct (response_of_month _ r months Hsort eq_refl Hr) as [month [-> Hin]].
  destruct (toResponse_fields month) as (_ & _ & -> & -> & Htxs & _).
  rewrite Htxs, rewardEvents_responses, <- rewardTimes_length in Hfew.
  destruct (Hspec month Hin) as [-> ->].
  unfold avgSecsBetweenRewards, totalSecsBetweenRewards.
  rewrite (gaps_short _ Hfew).
  apply Nat.ltb_lt in Hfew. by rewrite Hfew.
Qed.

End endpoint.

(** *** The endpoint run on three months *)

Lemma MonthlyRewards_most_recent_first_witness :
  ∃ resp,
    MonthlyRewardsEndpoint mainnetOnly map_to_list insertionSort threeMonths
      someRequest = (Some resp, None) ∧
    yearMonth <$> resp = [(2023, 3); (2023, 1); (2022, 12)].
Proof.
  destruct (MonthlyRewards_most_recent_first mainnetOnly map_to_list insertionSort
              threeMonths {| mrr_Address := "f9ab" |}
              [january2023; december2022; march2023]
              insertionSort_Sorts eq_refl) as [resp [He [_ [_ Hthree]]]].
  exists resp. split; [exact He|]. apply Hthree. reflexivity.
Defined.

Lemma unknown_chain_named_by_id_witness :
  ∃ resp,
    MonthlyRewardsEndpoint mainnetOnly map_to_list insertionSort threeMonths
      someRequest = (Some resp, None) ∧
    ∃ r, r ∈ resp ∧ mr_Year r = 2023 ∧ mr_Month r = 1 ∧
         mkRelaysByChain "0099" "0099" 300 ∈ mr_RelaysByChain r.
Proof.
  destruct (unknown_chain_named_by_id mainnetOnly map_to_list insertionSort
              threeMonths {| mrr_Address := "f9ab" |}
              [january2023; december2022; march2023] "0099"
              insertionSort_Sorts (λ m, reflexivity _) eq_refl eq_refl)
    as [resp [He [Hmonth _]]].
  exists resp. split; [exact He|].
  destruct (Hmonth january2023) as (r & Hr & Hy & Hm & _ & Hentry & _).
  - apply list_elem_of_here.
  - exists (proofTx "a2" 81010 63808301700000000000 "0099" 250).
    split; [|reflexivity].
    apply list_elem_of_further, list_elem_of_here.
  - exists r. split; [exact Hr|]. split; [exact Hy|]. split; [exact Hm|].
    exact Hentry.
Defined.

Lemma threeMonths_timingAsSpecified month :
  month ∈ [january2023; december2022; march2023] → timingAsSpecified month.
Proof.
  intros Hin. repeat (apply elem_of_cons in Hin as [->|Hin]);
    [split; reflexivity..|by apply not_elem_of_nil in Hin].
Qed.

Lemma few_rewards_zero_timing_witness :
  ∃ resp,
    MonthlyRewardsEndpoint mainnetOnly map_to_list insertionSort threeMonths
      someRequest = (Some resp, None) ∧
    ∀ r, r ∈ resp →
      (rewardEvents (mr_Transactions r) < 2)%nat →
      mr_AvgSecBetweenRewards r = 0 # 1 ∧ mr_TotalSecBetweenRewards r = 0 # 1.
Proof.
  exact (few_rewards_zero_timing mainnetOnly map_to_list insertionSort
           threeMonths {| mrr_Address := "f9ab" |}
           [january2023; december2022; march2023]
           insertionSort_Sorts eq_refl threeMonths_timingAsSpecified).
Defined.

End MonitoringFacts.

(** * Further properties of the resolver and of [Node] *)

Module ResolverFacts.

Import Pocket Provider ProviderFacts Runs.
Local Open Scope list_scope.

Section resolver.

Context {S Net : Type} `{!blockTimesRepo S} `{!Runtime Net}.

Implicit Types (w : World S Net) (height : uint).

(** X1.  Whatever it is given and however it ends, [doRequest] leaves the
    store of block times alone and writes nothing to it, asks the network
    at most once, and only adds to the trace. *)
Theorem doRequest_leaves_store url obj w :
  let w' := final (doRequest url obj w) in
  repo w' = repo w ∧
  writes (log w') = writes (log w) ∧
  (lookups (log w') ≤ Datatypes.S (lookups (log w)))%nat ∧
  ∃ l, log w' = log w ++ l ∧ ∀ e, e ∈ l → is_write e = false.
Proof.
  destruct (doRequest_frame url obj w) as [Hrepo [l [Hl [Hw Hk]]]].
  simpl. split; [done|]. rewrite Hl, writes_app, lookups_app, Hw.
  split; [lia|]. split; [lia|]. exists l. split; [done|].
  intros e He. destruct (is_write e) eqn:Hwe; [|done].
  assert (e ∈ filter is_write l) as Hin.
  { apply list_elem_of_filter. split; [by rewrite Hwe|done]. }
  unfold writes in Hw. apply nil_length_inv in Hw. rewrite Hw in Hin.
  by apply not_elem_of_nil in Hin.
Qed.

(** Every way in which [doRequest] returns. *)
Lemma doRequest_cases url obj w r w' :
  doRequest url obj w = Returned r w' →
  (∃ e, r = ([], Some (Errorf "doRequest: " e))) ∨
  (∃ reqBody req resp n body,
     json_Marshal obj = (reqBody, None) ∧
     http_NewRequest MethodPost url reqBody = (Some req, None) ∧
     client_Do (sent req) (net w) = ((Some resp, None), n) ∧
     ReadAll (Body resp) = (body, None) ∧
     r = (body, None) ∧
     w' = mkWorld (repo w) n (log w ++ [EvDo (sent req); EvClose])).
Proof.
  unfold doRequest.
  destruct (json_Marshal obj) as [reqBody [e|]] eqn:Hm;
    [intros [= <- <-]; eauto|].
  destruct (http_NewRequest MethodPost url reqBody) as [[req|] [e|]] eqn:Hn;
    try (intros [= <- <-]; eauto); try done.
  unfold bind, Do. destruct (client_Do _ (net w)) as [[resp err] n] eqn:Hd.
  destruct resp as [resp|]; [|done].
  destruct err as [e|]; [intros [= <- <-]; eauto|].
  destruct (ReadAll (Body resp)) as [body [e|]] eqn:Hr;
    [intros [= <- <-]; eauto|].
  unfold emit, ret. simpl. intros [= <- <-]. right.
  exists reqBody, req, resp, n, body. rewrite <- app_assoc. done.
Qed.

(** The events [doRequest] adds to the trace. *)
Lemma doRequest_trace url obj w :
  repo (final (doRequest url obj w)) = repo w ∧
  ∃ l, log (final (doRequest url obj w)) = log w ++ l ∧
       (l = [] ∨ ∃ r, l = [EvDo r] ∨ l = [EvDo r; EvClose]).
Proof.
  unfold doRequest.
  destruct (json_Marshal obj) as [reqBody [e|]].
  { simpl. split; [done|]. exists []. rewrite app_nil_r. eauto. }
  destruct (http_NewRequest MethodPost url reqBody) as [[req|] [e|]];
    try (simpl; split; [done|]; exists []; rewrite app_nil_r; eauto).
  unfold bind, Do. destruct (client_Do _ (net w)) as [[resp err] n].
  destruct resp as [resp|].
  - destruct err as [e|]; [|destruct (ReadAll (Body resp)) as [body [e|]]].
    all: simpl; split; [done|].
    all: exists [EvDo (sent req); EvClose].
    all: rewrite <- app_assoc; eauto.
  - simpl. split; [done|]. exists [EvDo (sent req)]. eauto.
Qed.

(** X2.  An error of [doRequest] comes with a nil body and a message that
    starts with the name of the function. *)
Theorem doRequest_error_shape url obj w body err w' :
  doRequest url obj w = Returned (body, Some err) w' →
  body = [] ∧ ∃ e, err = Errorf "doRequest: " e.
Proof.
  intros Hr. destruct (doRequest_cases _ _ _ _ _ Hr) as [[e [= -> ->]]|Hok].
  - eauto.
  - by destruct Hok as (? & ? & ? & ? & ? & _ & _ & _ & _ & [=] & _).
Qed.

(** X3.  A body that [doRequest] returns is the body read from the
    response to the one request it sent; that request carries the JSON
    content type under the canonical key [Content-Type] and no other
    value under it, its response came without an error and has been
    closed, and the store is as it was. *)
Theorem doRequest_returns_body_read url obj w body w' :
  doRequest url obj w = Returned (body, None) w' →
  ∃ req resp,
    client_Do req (net w) = ((Some resp, None), net w') ∧
    rc_content (Body resp) = body ∧ rc_err (Body resp) = None ∧
    ("Content-Type", contentTypeJSON) ∈ req_Header req ∧
    (∀ v, ("Content-Type", v) ∈ req_Header req → v = contentTypeJSON) ∧
    log w' = log w ++ [EvDo req; EvClose] ∧
    repo w' = repo w.
Proof.
  intros Hr. destruct (doRequest_cases _ _ _ _ _ Hr) as [[e [=]]|Hok].
  destruct Hok as (reqBody & req & resp & n & body' & _ & _ & Hd & Hread & [= <-] & ->).
  exists (sent req), resp. unfold ReadAll in Hread. injection Hread as <- Herr.
  assert (CanonicalMIMEHeaderKey "Content-type" = "Content-Type") as Hkey
    by reflexivity.
  repeat split; try done.
  - unfold sent, Header_Set. rewrite Hkey. simpl. apply list_elem_of_here.
  - unfold sent, Header_Set. rewrite Hkey. simpl.
    intros v [[= ->]|Hin]%elem_of_cons; [done|].
    apply list_elem_of_filter in Hin as [Hne _]. by destruct Hne.
Qed.

Lemma no_write_no_Set (l : list event) h t :
  writes l = 0%nat → EvSet h t ∉ l.
Proof.
  intros Hw Hin. unfold writes in Hw. apply nil_length_inv in Hw.
  assert (EvSet h t ∈ filter is_write l) as Hf
    by (apply list_elem_of_filter; by split).
  rewrite Hw in Hf. by apply not_elem_of_nil in Hf.
Qed.

(** X4.  However it ends, a call of [BlockTime] adds to the trace the
    cache read and then nothing, or one remote request, or one remote
    request and the closing of its response, or those two and last one
    cache write for the height asked: at most one lookup and one write,
    and a write only after the request. *)
Theorem BlockTime_frame height w :
  ∃ l, log (final (BlockTime height w)) = log w ++ EvGet height :: l ∧
       (l = [] ∨
        ∃ r, l = [EvDo r] ∨ l = [EvDo r; EvClose] ∨
             ∃ t, l = [EvDo r; EvClose; EvSet height t]) ∧
       (lookups l ≤ 1)%nat ∧ (writes l ≤ 1)%nat ∧
       ∀ h t, EvSet h t ∈ l → h = height ∧ lookups l = 1%nat.
Proof.
  assert (∀ l : list event,
            (l = [] ∨
             ∃ r, l = [EvDo r] ∨ l = [EvDo r; EvClose] ∨
                  ∃ t, l = [EvDo r; EvClose; EvSet height t]) →
            (lookups l ≤ 1)%nat ∧ (writes l ≤ 1)%nat ∧
            ∀ h t, EvSet h t ∈ l → h = height ∧ lookups l = 1%nat) as Hcount.
  { intros l [-> | [r [-> | [-> | [t ->]]]]].
    - split; [cbv; lia|]. split; [cbv; lia|].
      intros h t' Hin. by apply not_elem_of_nil in Hin.
    - split; [cbv; lia|]. split; [cbv; lia|].
      intros h t' Hin. apply list_elem_of_singleton in Hin. discriminate Hin.
    - split; [cbv; lia|]. split; [cbv; lia|].
      intros h t' [Hin|Hin]%elem_of_cons; [discriminate Hin|].
      apply list_elem_of_singleton in Hin. discriminate Hin.
    - split; [cbv; lia|]. split; [cbv; lia|].
      intros h t' [Hin|[Hin|Hin]%elem_of_cons]%elem_of_cons;
        [discriminate Hin|discriminate Hin|].
      apply list_elem_of_singleton in Hin. injection Hin as -> _.
      split; [done|reflexivity]. }
  assert (∀ l : list event,
            log (final (BlockTime height w)) = log w ++ EvGet height :: l →
            (l = [] ∨
             ∃ r, l = [EvDo r] ∨ l = [EvDo r; EvClose] ∨
                  ∃ t, l = [EvDo r; EvClose; EvSet height t]) →
            ∃ l, log (final (BlockTime height w)) = log w ++ EvGet height :: l ∧
                 (l = [] ∨
                  ∃ r, l = [EvDo r] ∨ l = [EvDo r; EvClose] ∨
                       ∃ t, l = [EvDo r; EvClose; EvSet height t]) ∧
                 (lookups l ≤ 1)%nat ∧ (writes l ≤ 1)%nat ∧
                 ∀ h t, EvSet h t ∈ l → h = height ∧ lookups l = 1%nat) as Hpack.
  { intros l Hl Hshape. exists l. split; [done|]. split; [done|].
    by apply Hcount. }
  destruct (Get height (repo w)) as [[[cached [|]] e] s'] eqn:Hg.
  - apply (Hpack []); [|by left].
    by rewrite (BlockTime_hit _ _ _ _ _ Hg).
  - rewrite (BlockTime_miss _ _ _ _ _ Hg) in Hpack |- *.
    pose proof (doRequest_trace blockURL (ReqBlock {| br_Height := height |})
                  (after_Get height s' w)) as [_ [l [Hl Hshape]]].
    simpl in Hl. rewrite <- app_assoc in Hl. simpl in Hl.
    assert (l = [] ∨
            ∃ r, l = [EvDo r] ∨ l = [EvDo r; EvClose] ∨
                 ∃ t, l = [EvDo r; EvClose; EvSet height t]) as Hshape'.
    { destruct Hshape as [-> | [r [-> | ->]]]; [by left|right; exists r; eauto..]. }
    destruct (doRequest _ _ _) as [[body [e1|]] w2|msg w2] eqn:Hd;
      simpl in Hl; try (by apply (Hpack l)).
    destruct (doRequest_success _ _ _ _ _ Hd) as [r Hlog]. simpl in Hlog.
    rewrite <- app_assoc in Hlog. simpl in Hlog.
    destruct (json_Unmarshal_block body) as [blk [e2|]].
    { apply (Hpack [EvDo r; EvClose]); [done|]. right. exists r. eauto. }
    destruct (Set_ _ _ _) as [[e3|] s2]; simpl.
    all: apply (Hpack [EvDo r; EvClose; EvSet height (blockTimeOf blk)]);
      [simpl; rewrite Hlog, <- app_assoc; done|].
    all: right; exists r; right; right; by exists (blockTimeOf blk).
Qed.

(** X5.  An error of [BlockTime] comes with the zero time and a message
    that starts with the name of the function. *)
Theorem BlockTime_error_shape height w t err w' :
  BlockTime height w = Returned (t, Some err) w' →
  t = zeroTime ∧ ∃ e, err = Errorf "pocketProvider.BlockTime: " e.
Proof.
  destruct (Get height (repo w)) as [[[cached [|]] e] s'] eqn:Hg.
  - by rewrite (BlockTime_hit _ _ _ _ _ Hg).
  - rewrite (BlockTime_miss _ _ _ _ _ Hg).
    destruct (doRequest _ _ _) as [[body [e1|]] w2|msg w2]; try done.
    { intros [= <- <- _]. eauto. }
    destruct (json_Unmarshal_block body) as [blk [e2|]].
    { intros [= <- <- _]. eauto. }
    destruct (Set_ _ _ _) as [[e3|] s2]; [|done].
    intros [= <- <- _]. eauto.
Qed.

(** X6.  What [BlockTime] writes to the cache is never partial nor stale:
    a write happens only after a cache miss, under the height asked, and
    its timestamp is the one decoded from the body that the remote lookup
    of this call returned. *)
Theorem BlockTime_writes_only_fetched height w :
  ∃ l, log (final (BlockTime height w)) = log w ++ l ∧
    ∀ h t, EvSet h t ∈ l →
      h = height ∧
      ∃ cached e s' body w2 blk,
        Get height (repo w) = ((cached, false, e), s') ∧
        doRequest blockURL (ReqBlock {| br_Height := height |})
          (after_Get height s' w) = Returned (body, None) w2 ∧
        json_Unmarshal_block body = (blk, None) ∧
        t = blockTimeOf blk.
Proof.
  destruct (Get height (repo w)) as [[[cached [|]] e] s'] eqn:Hg.
  - rewrite (BlockTime_hit _ _ _ _ _ Hg). exists [EvGet height].
    split; [done|]. intros h t Hin.
    apply list_elem_of_singleton in Hin. discriminate Hin.
  - rewrite (BlockTime_miss _ _ _ _ _ Hg).
    pose proof (doRequest_frame blockURL (ReqBlock {| br_Height := height |})
                  (after_Get height s' w)) as [_ [l [Hl [Hw _]]]].
    simpl in Hl.
    assert (∀ h t, EvSet h t ∈ [EvGet height] ++ l → False) as Hno.
    { intros h t [Hin|Hin]%elem_of_app.
      - apply list_elem_of_singleton in Hin. discriminate Hin.
      - by apply (no_write_no_Set l h t) in Hw. }
    destruct (doRequest _ _ _) as [[body [e1|]] w2|msg w2] eqn:Hd;
      simpl in Hl;
      try (exists ([EvGet height] ++ l); simpl; rewrite Hl, <- app_assoc;
           split; [done|]; intros h t Hin; by apply Hno in Hin).
    destruct (json_Unmarshal_block body) as [blk [e2|]] eqn:Hu;
      try (exists ([EvGet height] ++ l); simpl; rewrite Hl, <- app_assoc;
           split; [done|]; intros h t Hin; by apply Hno in Hin).
    destruct (Set_ _ _ _) as [[e3|] s2]; simpl.
    all: exists (([EvGet height] ++ l) ++ [EvSet height (blockTimeOf blk)]).
    all: rewrite Hl, <- !app_assoc; split; [done|].
    all: rewrite app_assoc.
    all: intros h t [Hin|Hin]%elem_of_app; [by apply Hno in Hin|].
    all: apply list_elem_of_singleton in Hin; injection Hin as -> ->.
    all: split; [done|]; by exists cached, e, s', body, w2, blk.
Qed.

(** X7.  With a store that keeps what it reports as written, a height
    that [BlockTime] has resolved is in the cache afterwards, under the
    timestamp returned. *)
Theorem BlockTime_populates height w t w1 :
  LawfulRepo S →
  BlockTime height w = Returned (t, None) w1 →
  ∃ e s', Get height (repo w1) = ((t, true, e), s').
Proof.
  intros Hlaw. destruct (Get height (repo w)) as [[[cached [|]] e] s'] eqn:Hg.
  - rewrite (BlockTime_hit _ _ _ _ _ Hg). intros [= <- <-]. simpl.
    by eapply get_stable.
  - rewrite (BlockTime_miss _ _ _ _ _ Hg).
    destruct (doRequest _ _ _) as [[body [e1|]] w2|msg w2]; try done.
    destruct (json_Unmarshal_block body) as [blk [e2|]]; [done|].
    destruct (Set_ _ _ _) as [[e3|] s2] eqn:Hs; [done|].
    intros [= <- <-]. simpl. by eapply set_get.
Qed.

(** X9.  When the node has answered, [Node] succeeds with one chain per
    identifier of the answer, in the same order; an identifier of the
    chain table comes with its name from the table.  Address, staked
    balance and jailing are those of the answer, and the node is never
    reported as synced. *)
Theorem Node_resolves_known_chains table address w body w2 nr :
  doRequest nodeURL (ReqNode {| qnr_Address := address |}) w
    = Returned (body, None) w2 →
  json_Unmarshal_node body = (nr, None) →
  ∃ node,
    Node table address w = Returned (node, None) w2 ∧
    length (Node_Chains node) = length (qn_Chains nr) ∧
    (∀ i id name,
       qn_Chains nr !! i = Some id → table !! id = Some name →
       Node_Chains node !! i = Some (mkChain name id)) ∧
    Node_Address node = qn_Address nr ∧
    Node_StakedBalance node = qn_StakedBalance nr ∧
    Node_IsJailed node = qn_IsJailed nr ∧
    Node_IsSynced node = false.
Proof.
  intros Hd Hu. unfold Node, bind. fold nodeURL. rewrite Hd, Hu.
  eexists. split; [reflexivity|]. simpl.
  rewrite (Node_loop_fills table _ (qn_Chains nr) []). simpl.
  split; [by rewrite length_fmap|]. split; [|done].
  intros i id name Hi Ht. rewrite list_lookup_fmap, Hi. simpl.
  unfold ChainFromID. by rewrite Ht.
Qed.

(** [Node] adds nothing to what its [doRequest] does. *)
Lemma Node_final table address w :
  final (Node table address w)
  = final (doRequest nodeURL (ReqNode {| qnr_Address := address |}) w).
Proof.
  unfold Node, bind. fold nodeURL.
  destruct (doRequest _ _ _) as [[body [err|]] w2|msg w2]; try done.
  by destruct (json_Unmarshal_node body) as [nr [err|]].
Qed.

(** X10.  [Node] never consults nor changes the cache of block times: the
    store is as it was, and the trace gains at most one request to the
    network and the closing of its response. *)
Theorem Node_leaves_cache table address w :
  repo (final (Node table address w)) = repo w ∧
  ∃ l, log (final (Node table address w)) = log w ++ l ∧
       (l = [] ∨ ∃ r, l = [EvDo r] ∨ l = [EvDo r; EvClose]).
Proof. rewrite Node_final. apply doRequest_trace. Qed.

(** X11.  An error of [Node] comes with the zero [Node] and a message that
    starts with the name of the function. *)
Theorem Node_error_shape table address w node err w' :
  Node table address w = Returned (node, Some err) w' →
  node = zeroNode ∧ ∃ e, err = Errorf "pocketProvider.Node: " e.
Proof.
  unfold Node, bind.
  destruct (doRequest _ _ _) as [[body [e1|]] w2|msg w2]; try done.
  { intros [= <- <- _]. eauto. }
  destruct (json_Unmarshal_node body) as [nr [e2|]]; [|done].
  intros [= <- <- _]. eauto.
Qed.

(** X12.  When the client's [Do] hands back a nil response, as it does
    on a network error, [Node] panics instead of returning an error. *)
Theorem Node_network_error_panics table address w reqBody req err n :
  json_Marshal (ReqNode {| qnr_Address := address |}) = (reqBody, None) →
  http_NewRequest MethodPost nodeURL reqBody = (Some req, None) →
  client_Do (sent req) (net w) = ((None, err), n) →
  ∃ w', Node table address w = Panicked nilDeref w' ∧ repo w' = repo w.
Proof.
  intros Hm Hn Hd. unfold Node, bind. fold nodeURL.
  rewrite (doRequest_Do _ _ _ _ _ _ _ _ Hm Hn Hd). by eexists.
Qed.

End resolver.

(** *** Run on the fixtures *)

Lemma doRequest_error_shape_witness :
  ([] : bytes) = [] ∧
  ∃ e, "doRequest: unexpected EOF" = Errorf "doRequest: " e.
Proof.
  eapply (doRequest_error_shape blockURL (ReqBlock {| br_Height := 7 |})
            truncatedWorld [] "doRequest: unexpected EOF").
  vm_compute; reflexivity.
Defined.

Lemma doRequest_returns_body_read_witness :
  ∃ req resp,
    client_Do req (net freshWorld) = ((Some resp, None), [ok [Byte.x2b]]) ∧
    rc_content (Body resp) = [Byte.x2a].
Proof.
  edestruct (doRequest_returns_body_read blockURL
               (ReqBlock {| br_Height := 7 |}) freshWorld)
    as (req & resp & Hd & Hc & _).
  - vm_compute; reflexivity.
  - exists req, resp. split; [exact Hd | exact Hc].
Defined.

Lemma BlockTime_error_shape_witness :
  zeroTime = zeroTime ∧
  ∃ e, "pocketProvider.BlockTime: cache: disk full"
       = Errorf "pocketProvider.BlockTime: " e.
Proof.
  eapply (BlockTime_error_shape 7 readOnlyWorld zeroTime
            "pocketProvider.BlockTime: cache: disk full").
  vm_compute; reflexivity.
Defined.

Lemma BlockTime_failed_lookup_witness :
  ∃ err w', BlockTime 7 garbledWorld
            = Returned (zeroTime,
                        Some (Errorf "pocketProvider.BlockTime: " err)) w' ∧
            repo w' = repo garbledWorld ∧ writes (log w') = 0%nat.
Proof.
  edestruct (BlockTime_failed_lookup 7 garbledWorld) as [err [Hb [Hr Hw]]].
  - vm_compute; reflexivity.
  - vm_compute; reflexivity.
  - right. vm_compute. eauto.
  - exists err. eexists. split; [exact Hb|]. split; [exact Hr | exact Hw].
Defined.

Lemma BlockTime_populates_witness :
  ∃ w1 e s', BlockTime 7 freshWorld = Returned (42, None) w1 ∧
             Get 7 (repo w1) = ((42, true, e), s').
Proof.
  eexists.
  edestruct (BlockTime_populates 7 freshWorld 42) as [e [s' Hg]].
  - exact storeRepo_lawful.
  - vm_compute; reflexivity.
  - exists e, s'. split; [vm_compute; reflexivity | exact Hg].
Defined.

Lemma Node_resolves_known_chains_witness :
  ∃ node w', Node mainnetOnly "f9ab" nodeWorld = Returned (node, None) w' ∧
             Node_Chains node !! 0%nat
             = Some (mkChain "Pocket Network Mainnet" "0001").
Proof.
  edestruct (Node_resolves_known_chains mainnetOnly "f9ab" nodeWorld)
    as (node & Hn & _ & Hc & _).
  - vm_compute; reflexivity.
  - vm_compute; reflexivity.
  - exists node. eexists. split; [exact Hn|].
    apply Hc; vm_compute; reflexivity.
Defined.

Lemma Node_error_shape_witness :
  zeroNode = zeroNode ∧
  ∃ e, "pocketProvider.Node: unexpected end of JSON input"
       = Errorf "pocketProvider.Node: " e.
Proof.
  eapply (Node_error_shape mainnetOnly "f9ab" garbledWorld zeroNode
            "pocketProvider.Node: unexpected end of JSON input").
  vm_compute; reflexivity.
Defined.

Lemma Node_network_error_panics_witness :
  ∃ w', Node mainnetOnly "f9ab" offlineWorld = Panicked nilDeref w' ∧
        repo w' = repo offlineWorld.
Proof.
  eapply (Node_network_error_panics mainnetOnly "f9ab" offlineWorld).
  - vm_compute; reflexivity.
  - vm_compute; reflexivity.
  - vm_compute; reflexivity.
Defined.

End ResolverFacts.

(** * Properties of the other queries *)

Module QueriesFacts.

Import Pocket Provider ProviderFacts Queries Runs.
Local Open Scope list_scope.

Section queries.

Context {S Net Raw : Type} `{!blockTimesRepo S} `{!Runtime Net}
  `{!QueryRuntime Raw}.

Implicit Types (w : World S Net).

(** [doRequest] is [doRequest_marshalled] after [json.Marshal]. *)
Lemma doRequest_marshalled_eq url obj w :
  doRequest url obj w = doRequest_marshalled url (json_Marshal obj) w.
Proof. reflexivity. Qed.

(** Every way in which a query's request ends. *)
Lemma doRequest_marshalled_outcome url m w :
  repo (final (doRequest_marshalled url m w)) = repo w ∧
  (∃ l, log (final (doRequest_marshalled url m w)) = log w ++ l ∧
        (l = [] ∨ ∃ r, l = [EvDo r] ∨ l = [EvDo r; EvClose])) ∧
  (∀ body err w', doRequest_marshalled url m w = Returned (body, Some err) w' →
     ∃ e, err = Errorf "doRequest: " e).
Proof.
  unfold doRequest_marshalled.
  destruct m as [reqBody [e|]].
  { simpl. split; [done|]. split; [exists []; rewrite app_nil_r; eauto|].
    intros body err w' [= _ <- _]. eauto. }
  destruct (http_NewRequest MethodPost url reqBody) as [[req|] [e|]].
  - simpl. split; [done|]. split; [exists []; rewrite app_nil_r; eauto|].
    intros body err w' [= _ <- _]. eauto.
  - unfold bind, Do. destruct (client_Do _ (net w)) as [[resp err0] n].
    destruct resp as [resp|].
    + destruct err0 as [e|]; [|destruct (ReadAll (Body resp)) as [b [e|]]].
      all: simpl; split; [done|].
      all: split; [exists [EvDo (sent req); EvClose];
                   rewrite <- app_assoc; eauto|].
      all: intros body err w' [= _ <- _] || intros body err w' [=]; eauto.
    + simpl. split; [done|]. split; [exists [EvDo (sent req)]; eauto|]. done.
  - simpl. split; [done|]. split; [exists []; rewrite app_nil_r; eauto|].
    intros body err w' [= _ <- _]. eauto.
  - simpl. split; [done|]. split; [exists []; rewrite app_nil_r; eauto|]. done.
Qed.

(** X13.  [Balance] returns either the balance decoded from the body of
    the node's answer, or 0 with an error whose message starts with the
    name of the function; it leaves the cache of block times alone. *)
Theorem Balance_result address w b e w' :
  Balance address w = Returned (b, e) w' →
  repo w' = repo w ∧
  match e with
  | Some err => b = 0 ∧ ∃ m, err = Errorf "pocketProvider.Balance: " m
  | None =>
    ∃ body resp,
      doQuery (Sprintf_slash pocketEndpoint urlPathGetBalance)
        (ReqBalance {| bal_Address := address |}) w = Returned (body, None) w' ∧
      json_Unmarshal_balance body = (resp, None) ∧ b = bal_Balance resp
  end.
Proof.
  unfold Balance, bind, doQuery.
  pose proof (doRequest_marshalled_outcome
                (Sprintf_slash pocketEndpoint urlPathGetBalance)
                (json_Marshal_query (ReqBalance {| bal_Address := address |})) w)
    as [Hrepo _].
  destruct (doRequest_marshalled _ _ _) as [[body [e1|]] w2|msg w2]; try done.
  { intros [= <- <- <-]. eauto. }
  destruct (json_Unmarshal_balance body) as [resp [e2|]] eqn:Hu.
  { intros [= <- <- <-]. eauto. }
  intros [= <- <- <-]. split; [done|]. by exists body, resp.
Qed.

(** X14.  [Transaction] returns either the conversion of the record
    decoded from the body of the node's answer, or the zero transaction
    with an error whose message starts with the name of the function; it
    leaves the cache of block times alone. *)
Theorem Transaction_result hash w txn e w' :
  Transaction hash w = Returned (txn, e) w' →
  repo w' = repo w ∧
  match e with
  | Some err =>
    txn = zeroTransaction ∧ ∃ m, err = Errorf "pocketProvider.Transaction: " m
  | None =>
    ∃ body record,
      doQuery (Sprintf_slash pocketEndpoint urlPathGetTransaction)
        (ReqTransaction {| txq_Hash := hash |}) w = Returned (body, None) w' ∧
      json_Unmarshal_transaction body = (record, None) ∧
      raw_Transaction record = (txn, None)
  end.
Proof.
  unfold Transaction, bind, doQuery.
  pose proof (doRequest_marshalled_outcome
                (Sprintf_slash pocketEndpoint urlPathGetTransaction)
                (json_Marshal_query (ReqTransaction {| txq_Hash := hash |})) w)
    as [Hrepo _].
  destruct (doRequest_marshalled _ _ _) as [[body [e1|]] w2|msg w2]; try done.
  { intros [= <- <- <-]. eauto. }
  destruct (json_Unmarshal_transaction body) as [record [e2|]] eqn:Hu.
  { intros [= <- <- <-]. eauto. }
  destruct (raw_Transaction record) as [t [e3|]] eqn:Hc.
  { intros [= <- <- <-]. eauto. }
  intros [= <- <- <-]. split; [done|]. by exists body, record.
Qed.

Lemma AccountTransactions_loop_ok fail records acc :
  Forall (λ r, snd (raw_Transaction r) = None) records →
  AccountTransactions_loop fail records acc
  = (acc ++ ((λ r, fst (raw_Transaction r)) <$> records), None).
Proof.
  intros Hok. revert acc. induction Hok as [|r records Hr _ IH]; intros acc.
  - simpl. by rewrite app_nil_r.
  - simpl. destruct (raw_Transaction r) as [txn [e|]]; [done|].
    rewrite IH. simpl. by rewrite <- app_assoc.
Qed.

Lemma AccountTransactions_loop_fail fail good bad rest acc x err :
  Forall (λ r, snd (raw_Transaction r) = None) good →
  raw_Transaction bad = (x, Some err) →
  AccountTransactions_loop fail (good ++ bad :: rest) acc = fail err.
Proof.
  intros Hok Hbad. revert acc. induction Hok as [|r good Hr _ IH]; intros acc.
  - simpl. by rewrite Hbad.
  - simpl. destruct (raw_Transaction r) as [txn [e|]]; [done|]. apply IH.
Qed.

(** X15.  When every record of the node's answer converts,
    [AccountTransactions] returns their conversions, one per record and
    in the order of the answer. *)
Theorem AccountTransactions_in_order address page perPage sort w body w2 records :
  doQuery (Sprintf_slash pocketEndpoint urlPathGetAccountTransactions)
    (ReqAccountTransactions
       {| atq_Address := address; atq_Height := 0; atq_Page := page;
          atq_PerPage := perPage; atq_Sort := sort |}) w
    = Returned (body, None) w2 →
  json_Unmarshal_accountTransactions body = (records, None) →
  Forall (λ r, snd (raw_Transaction r) = None) records →
  AccountTransactions address page perPage sort w
  = Returned ((λ r, fst (raw_Transaction r)) <$> records, None) w2.
Proof.
  intros Hd Hu Hok. unfold AccountTransactions, bind. rewrite Hd, Hu.
  by rewrite AccountTransactions_loop_ok.
Qed.

(** X16.  When a record of the node's answer does not convert,
    [AccountTransactions] fails with the error of the first such record
    and returns no transaction at all, whatever converted before it. *)
Theorem AccountTransactions_first_failure address page perPage sort w body w2
    good bad rest x err :
  doQuery (Sprintf_slash pocketEndpoint urlPathGetAccountTransactions)
    (ReqAccountTransactions
       {| atq_Address := address; atq_Height := 0; atq_Page := page;
          atq_PerPage := perPage; atq_Sort := sort |}) w
    = Returned (body, None) w2 →
  json_Unmarshal_accountTransactions body = (good ++ bad :: rest, None) →
  Forall (λ r, snd (raw_Transaction r) = None) good →
  raw_Transaction bad = (x, Some err) →
  AccountTransactions address page perPage sort w
  = Returned ([], Some (Errorf "pocketProvider.AccountTransactions: " err)) w2.
Proof.
  intros Hd Hu Hok Hbad. unfold AccountTransactions, bind. rewrite Hd, Hu.
  by rewrite (AccountTransactions_loop_fail _ _ _ _ _ _ _ Hok Hbad).
Qed.

(** X17.  When the client's [Do] hands back a nil response, as it does on
    a network error, [Balance], [Transaction] and [AccountTransactions]
    panic instead of returning an error. *)
Theorem queries_panic_on_network_error w address hash page perPage sort :
  (∀ obj, snd (json_Marshal_query obj) = None) →
  (∀ url reqBody, ∃ req, http_NewRequest MethodPost url reqBody = (Some req, None)) →
  (∀ req, fst (fst (client_Do req (net w))) = None) →
  (∃ w', Balance address w = Panicked nilDeref w') ∧
  (∃ w', Transaction hash w = Panicked nilDeref w') ∧
  (∃ w', AccountTransactions address page perPage sort w = Panicked nilDeref w').
Proof.
  intros Hm Hn Hd.
  assert (∀ url obj, ∃ w', doQuery url obj w = Panicked nilDeref w') as Hq.
  { intros url obj. unfold doQuery, doRequest_marshalled.
    specialize (Hm obj). destruct (json_Marshal_query obj) as [reqBody e].
    simpl in Hm. subst e. destruct (Hn url reqBody) as [req ->].
    unfold bind, Do. specialize (Hd (sent req)).
    destruct (client_Do _ (net w)) as [[resp e] n]. simpl in Hd. subst resp.
    by eexists. }
  split; [|split].
  - destruct (Hq (Sprintf_slash pocketEndpoint urlPathGetBalance)
                (ReqBalance {| bal_Address := address |})) as [w' Hp].
    exists w'. unfold Balance, bind. by rewrite Hp.
  - destruct (Hq (Sprintf_slash pocketEndpoint urlPathGetTransaction)
                (ReqTransaction {| txq_Hash := hash |})) as [w' Hp].
    exists w'. unfold Transaction, bind. by rewrite Hp.
  - destruct (Hq (Sprintf_slash pocketEndpoint urlPathGetAccountTransactions)
                (ReqAccountTransactions
                   {| atq_Address := address; atq_Height := 0;
                      atq_Page := page; atq_PerPage := perPage;
                      atq_Sort := sort |})) as [w' Hp].
    exists w'. unfold AccountTransactions, bind. by rewrite Hp.
Qed.

End queries.

(** *** Run on the fixtures *)

Lemma Balance_result_witness :
  ∃ w', Balance "f9ab" freshWorld = Returned (1, None) w' ∧
        repo w' = repo freshWorld.
Proof.
  edestruct (Balance_result "f9ab" freshWorld 1 None) as [Hrepo _].
  - vm_compute; reflexivity.
  - eexists. split; [vm_compute; reflexivity | exact Hrepo].
Defined.

Lemma Transaction_result_witness :
  ∃ w', Transaction "a1" garbledWorld
        = Returned (zeroTransaction,
                    Some "pocketProvider.Transaction: unexpected end of JSON input")
            w' ∧
        repo w' = repo garbledWorld.
Proof.
  edestruct (Transaction_result "a1" garbledWorld zeroTransaction
               (Some "pocketProvider.Transaction: unexpected end of JSON input"))
    as [Hrepo _].
  - vm_compute; reflexivity.
  - eexists. split; [vm_compute; reflexivity | exact Hrepo].
Defined.

Lemma AccountTransactions_in_order_witness :
  ∃ w', AccountTransactions "f9ab" 1 50 "desc" cleanHistoryWorld
        = Returned ((λ r, fst (raw_Transaction r)) <$> [("tx", 1); ("tx", 2)],
                    None) w'.
Proof.
  eexists.
  eapply (AccountTransactions_in_order (Raw := string * Z)
            "f9ab" 1 50 "desc" cleanHistoryWorld _ _ [("tx", 1); ("tx", 2)]).
  - vm_compute; reflexivity.
  - vm_compute; reflexivity.
  - repeat constructor.
Defined.

Lemma AccountTransactions_first_failure_witness :
  ∃ w', AccountTransactions "f9ab" 1 50 "desc" historyWorld
        = Returned ([], Some (Errorf "pocketProvider.AccountTransactions: "
                                "invalid relay count")) w'.
Proof.
  eexists.
  eapply (AccountTransactions_first_failure (Raw := string * Z)
            "f9ab" 1 50 "desc" historyWorld
            _ _ [("tx", 1)] ("tx", -99) [("tx", 2)]).
  - vm_compute; reflexivity.
  - vm_compute; reflexivity.
  - repeat constructor.
  - vm_compute; reflexivity.
Defined.

Lemma queries_panic_on_network_error_witness :
  (∃ w', Balance "f9ab" offlineWorld = Panicked nilDeref w') ∧
  (∃ w', Transaction "a1" offlineWorld = Panicked nilDeref w') ∧
  (∃ w', AccountTransactions "f9ab" 1 50 "desc" offlineWorld
         = Panicked nilDeref w').
Proof.
  apply (queries_panic_on_network_error offlineWorld "f9ab" "a1" 1 50 "desc").
  - intros obj. reflexivity.
  - intros url reqBody. eexists. reflexivity.
  - intros req. reflexivity.
Defined.

End QueriesFacts.

(** * Properties of the other endpoints *)

Module EndpointsFacts.

Import Pocket Monitoring Endpoints Runs.
Local Open Scope list_scope.

(** X18.  [validate] accepts a relay request exactly when the servicer's
    URL and the chain identifier are not empty and there is a payload; a
    missing URL is reported before a missing chain identifier, and that
    before a missing payload. *)
Theorem validate_accepts_iff {Payload} (req : relayRequest Payload) :
  (validate req = None ↔
   rr_ServicerURL req ≠ "" ∧ rr_ChainID req ≠ "" ∧ is_Some (rr_Payload req)) ∧
  (rr_ServicerURL req = "" →
   validate req
   = Some "relayRequest.validate: Missing required param 'servicer_url") ∧
  (rr_ServicerURL req ≠ "" → rr_ChainID req = "" →
   validate req
   = Some "relayRequest.validate: Missing required param 'chain_id") ∧
  (rr_ServicerURL req ≠ "" → rr_ChainID req ≠ "" → rr_Payload req = None →
   validate req
   = Some "relayRequest.validate: Missing required param 'payload").
Proof.
  unfold validate.
  destruct (decide (rr_ServicerURL req = "")) as [Hu|Hu];
    [|destruct (decide (rr_ChainID req = "")) as [Hc|Hc];
      [|destruct (rr_Payload req) as [p|] eqn:Hp]].
  all: repeat split; try done; try (by intros (? & ? & ?)).
Qed.

Section endpoints.

Context {Params Relay Payload : Type}.
Variable Sprint_v : anyRequest Payload → string.

Implicit Types (svc : ServiceAPI Params Relay Payload)
  (request : anyRequest Payload).

(** X19.  A relay request that [validate] rejects never reaches the
    service: whatever the service, [SimulateRelayEndpoint] answers with
    the error of [validate] behind its own name, and no response. *)
Theorem SimulateRelay_rejects_before_service svc req err :
  validate req = Some err →
  SimulateRelayEndpoint Sprint_v svc (OfRelay req)
  = (None, Some (Errorf "SimulateRelayEndpoint: " err)).
Proof. intros Hv. unfold SimulateRelayEndpoint. by rewrite Hv. Qed.

Lemma accountEntries_loop_fills txs (pre : list transactionResponse) :
  accountEntries_loop (length pre) txs
    (pre ++ replicate (length txs) zeroTransactionResponse)
  = pre ++ (accountEntry <$> txs).
Proof.
  revert pre. induction txs as [|tx txs IH]; intros pre; simpl.
  - done.
  - rewrite insert_app_r_alt by lia. rewrite Nat.sub_diag. simpl.
    specialize (IH (pre ++ [accountEntry tx])).
    rewrite length_app, Nat.add_1_r, <- app_assoc in IH. simpl in IH.
    by rewrite IH, <- app_assoc.
Qed.

Lemma nodeChains_loop_fills cs (pre : list chainResponse) :
  nodeChains_loop (length pre) cs
    (pre ++ replicate (length cs) (mkChainResponse "" ""))
  = pre ++ ((λ c, mkChainResponse (Chain_Name c) (Chain_ID c)) <$> cs).
Proof.
  revert pre. induction cs as [|c cs IH]; intros pre; simpl.
  - done.
  - rewrite insert_app_r_alt by lia. rewrite Nat.sub_diag. simpl.
    specialize (IH (pre ++ [mkChainResponse (Chain_Name c) (Chain_ID c)])).
    rewrite length_app, Nat.add_1_r, <- app_assoc in IH. simpl in IH.
    by rewrite IH, <- app_assoc.
Qed.

(** X20.  When the service has answered, [AccountTransactionsEndpoint]
    returns one entry per transaction, in the same order.  An entry has
    the hash, height, time, type, chain identifier, session and expiry
    heights, application key, relays and rate of its transaction; its
    chain is left empty and it is never marked as confirmed. *)
Theorem AccountTransactionsEndpoint_entries svc req txs :
  svc_AccountTransactions svc (arq_Address req) (arq_Page req)
    (arq_PerPage req) (arq_Sort req) = (txs, None) →
  ∃ resp,
    AccountTransactionsEndpoint Sprint_v svc (OfAccountTransactions req)
      = (Some resp, None) ∧
    length resp = length txs ∧
    ∀ i tx, txs !! i = Some tx →
      ∃ r, resp !! i = Some r ∧
        tr_Hash r = Hash tx ∧ tr_Height r = Height tx ∧
        tr_Time r = TxTime tx ∧ tr_Type r = Type_ tx ∧
        tr_ChainID r = ChainID tx ∧
        tr_SessionHeight r = SessionHeight tx ∧
        tr_ExpireHeight r = ExpireHeight tx ∧
        tr_AppPubkey r = AppPubkey tx ∧
        tr_NumRelays r = NumRelays tx ∧
        tr_PoktPerRelay r = PoktPerRelay tx ∧
        tr_Chain r = mkChainResponse "" "" ∧
        tr_IsConfirmed r = false.
Proof.
  intros Hsvc. unfold AccountTransactionsEndpoint. rewrite Hsvc.
  pose proof (accountEntries_loop_fills txs []) as Hloop. simpl in Hloop.
  rewrite Hloop. eexists. split; [reflexivity|].
  split; [by rewrite length_fmap|].
  intros i tx Hi. exists (accountEntry tx).
  rewrite list_lookup_fmap, Hi. done.
Qed.

(** X21.  When the service has answered, [NodeEndpoint] returns the node
    with one chain entry per chain of the node, in the same order and
    with the same name and identifier, and with its other fields
    unchanged. *)
Theorem NodeEndpoint_chains svc req node :
  svc_Node svc (nq_Address req) = (node, None) →
  ∃ resp,
    NodeEndpoint Sprint_v svc (OfNode req) = (Some resp, None) ∧
    length (nr_Chains resp) = length (Node_Chains node) ∧
    (∀ i c, Node_Chains node !! i = Some c →
       nr_Chains resp !! i = Some (mkChainResponse (Chain_Name c) (Chain_ID c))) ∧
    nr_Address resp = Node_Address node ∧
    nr_Balance resp = Node_Balance node ∧
    nr_StakedBalance resp = Node_StakedBalance node ∧
    nr_IsJailed resp = Node_IsJailed node ∧
    nr_IsSynced resp = Node_IsSynced node.
Proof.
  intros Hsvc. unfold NodeEndpoint. rewrite Hsvc.
  pose proof (nodeChains_loop_fills (Node_Chains node) []) as Hloop.
  simpl in Hloop. rewrite Hloop. eexists. split; [reflexivity|]. simpl.
  split; [by rewrite length_fmap|]. split; [|done].
  intros i c Hi. by rewrite list_lookup_fmap, Hi.
Qed.

(** X22.  An endpoint answers with a response or with an error, never
    with both and never with neither. *)
Theorem endpoints_response_xor_error svc request :
  (is_Some (HeightEndpoint svc request).1 ↔ (HeightEndpoint svc request).2 = None) ∧
  (is_Some (BlockTimesEndpoint Sprint_v svc request).1
   ↔ (BlockTimesEndpoint Sprint_v svc request).2 = None) ∧
  (is_Some (ParamsEndpoint Sprint_v svc request).1
   ↔ (ParamsEndpoint Sprint_v svc request).2 = None) ∧
  (is_Some (TransactionEndpoint Sprint_v svc request).1
   ↔ (TransactionEndpoint Sprint_v svc request).2 = None) ∧
  (is_Some (AccountTransactionsEndpoint Sprint_v svc request).1
   ↔ (AccountTransactionsEndpoint Sprint_v svc request).2 = None) ∧
  (is_Some (SimulateRelayEndpoint Sprint_v svc request).1
   ↔ (SimulateRelayEndpoint Sprint_v svc request).2 = None) ∧
  (is_Some (NodeEndpoint Sprint_v svc request).1
   ↔ (NodeEndpoint Sprint_v svc request).2 = None).
Proof.
  assert (∀ A (x : A), is_Some (Some x) ↔ @None string = None) as Hyes
    by (intros; split; eauto).
  assert (∀ A e, is_Some (@None A) ↔ Some e = @None string) as Hno
    by (intros A e; split; [by intros [? [=]]|done]).
  unfold HeightEndpoint, BlockTimesEndpoint, ParamsEndpoint,
    TransactionEndpoint, AccountTransactionsEndpoint, SimulateRelayEndpoint,
    NodeEndpoint.
  repeat split.
  all: try (destruct request; simpl; try apply Hno).
  all: repeat match goal with
         | |- context [match ?x with _ => _ end] =>
           destruct x as [? [?|]] eqn:?; simpl
         end; try apply Hno; try apply Hyes.
  all: try (destruct (validate r) eqn:?; simpl; try apply Hno).
  all: repeat match goal with
         | |- context [match ?x with _ => _ end] =>
           destruct x as [? [?|]] eqn:?; simpl
         end; try apply Hno; try apply Hyes.
Qed.

(** X23.  A request of another type than the one an endpoint expects is
    refused without the service being asked: the answer is an error that
    carries the rendering of the request, whatever the service.
    [HeightEndpoint] expects nothing and answers alike to every
    request. *)
Theorem wrong_request_type_refused svc :
  (∀ request, (∀ r, request ≠ OfBlockTimes r) →
     BlockTimesEndpoint Sprint_v svc request
     = (None, Some (Errorf "BlockTimesEndpoint: "
                      (Errorf "failed to parse request: " (Sprint_v request))))) ∧
  (∀ request, (∀ r, request ≠ OfParams r) →
     ParamsEndpoint Sprint_v svc request
     = (None, Some (Errorf "ParamsEndpoint: "
                      (Errorf "failed to parse request: " (Sprint_v request))))) ∧
  (∀ request, (∀ r, request ≠ OfTransaction r) →
     TransactionEndpoint Sprint_v svc request
     = (None, Some (Errorf "TransactionEndpoint: "
                      (Errorf "failed to parse request: " (Sprint_v request))))) ∧
  (∀ request, (∀ r, request ≠ OfAccountTransactions r) →
     AccountTransactionsEndpoint Sprint_v svc request
     = (None, Some (Errorf "AccountTransactionsEndpoint: "
                      (Errorf "failed to parse request: " (Sprint_v request))))) ∧
  (∀ request, (∀ r, request ≠ OfRelay r) →
     SimulateRelayEndpoint Sprint_v svc request
     = (None, Some (Errorf "SimulateRelayEndpoint: "
                      (Errorf "SimulateRelayEndpoint failed to parse request: "
                         (Sprint_v request))))) ∧
  (∀ request, (∀ r, request ≠ OfNode r) →
     NodeEndpoint Sprint_v svc request
     = (None, Some (Errorf "NodeEndpoint: "
                      (Errorf "failed to parse request: " (Sprint_v request))))) ∧
  (∀ request other, HeightEndpoint svc other = HeightEndpoint svc request).
Proof.
  repeat split; try done.
  all: intros request Hne; destruct request as [r|r|r|r|r|r|v]; try done.
  all: by destruct (Hne r).
Qed.

End endpoints.

(** *** Run on a service *)

Lemma SimulateRelay_rejects_before_service_witness :
  SimulateRelayEndpoint (λ _, "{}") echoService (OfRelay relayWithoutChain)
  = (None, Some (Errorf "SimulateRelayEndpoint: "
                   "relayRequest.validate: Missing required param 'chain_id")).
Proof.
  apply (SimulateRelay_rejects_before_service (λ _, "{}") echoService
           relayWithoutChain).
  reflexivity.
Defined.

Lemma wrong_request_type_refused_witness :
  NodeEndpoint (λ _, "{}") echoService
    (OfParams {| prq_Height := 81020 |})
  = (None, Some (Errorf "NodeEndpoint: "
                   (Errorf "failed to parse request: " "{}"))).
Proof.
  destruct (wrong_request_type_refused (λ _, "{}") echoService)
    as (_ & _ & _ & _ & _ & Hnode & _).
  apply (Hnode (OfParams {| prq_Height := 81020 |})).
  intros r. discriminate.
Defined.

Lemma AccountTransactionsEndpoint_entries_witness :
  ∃ resp,
    AccountTransactionsEndpoint (λ _, "{}") echoService
      (OfAccountTransactions
         {| arq_Address := "f9ab"; arq_Page := 1; arq_PerPage := 50;
            arq_Sort := "desc" |}) = (Some resp, None) ∧
    length resp = 2%nat.
Proof.
  edestruct (AccountTransactionsEndpoint_entries (λ _, "{}") echoService
               {| arq_Address := "f9ab"; arq_Page := 1; arq_PerPage := 50;
                  arq_Sort := "desc" |}) as (resp & He & Hlen & _).
  - reflexivity.
  - exists resp. split; [exact He | exact Hlen].
Defined.

Lemma NodeEndpoint_chains_witness :
  ∃ resp,
    NodeEndpoint (λ _, "{}") echoService (OfNode {| nq_Address := "f9ab" |})
      = (Some resp, None) ∧
    length (nr_Chains resp) = 2%nat.
Proof.
  edestruct (NodeEndpoint_chains (λ _, "{}") echoService
               {| nq_Address := "f9ab" |}) as (resp & He & Hlen & _).
  - reflexivity.
  - exists resp. split; [exact He | exact Hlen].
Defined.

End EndpointsFacts.

(** * Further properties of the monthly-rewards endpoint *)

Module RewardsFacts.

Import Pocket GoSort GoSortFacts Monitoring MonitoringFacts Runs.
Local Open Scope list_scope.

(** X24.  The comparison handed to [sort.Slice] is a strict order of the
    summaries by recency: it holds exactly from a later (year, month) to
    an earlier one, is irreflexive, asymmetric and transitive, and leaves
    two summaries unordered exactly when they have the same year and
    month. *)
Theorem byYearMonthDesc_order :
  (∀ a b, byYearMonthDesc a b = true ↔
          (mr_Year b < mr_Year a ∨
           (mr_Year a = mr_Year b ∧ mr_Month b < mr_Month a))%Z) ∧
  (∀ a, byYearMonthDesc a a = false) ∧
  (∀ a b, byYearMonthDesc a b = true → byYearMonthDesc b a = false) ∧
  (∀ a b c, byYearMonthDesc a b = true → byYearMonthDesc b c = true →
            byYearMonthDesc a c = true) ∧
  (∀ a b, byYearMonthDesc a b = false ∧ byYearMonthDesc b a = false ↔
          yearMonth a = yearMonth b).
Proof.
  assert (∀ a b, byYearMonthDesc a b = true ↔
            (mr_Year b < mr_Year a ∨
             (mr_Year a = mr_Year b ∧ mr_Month b < mr_Month a))%Z) as Hiff.
  { intros a b. unfold byYearMonthDesc.
    destruct (Z.eqb_spec (mr_Year a) (mr_Year b)); rewrite Z.ltb_lt; lia. }
  assert (∀ a b, byYearMonthDesc a b = false ↔
            ¬ (mr_Year b < mr_Year a ∨
               (mr_Year a = mr_Year b ∧ mr_Month b < mr_Month a))%Z) as Hnot.
  { intros a b. rewrite <- Hiff. by destruct (byYearMonthDesc a b). }
  split; [done|]. split; [|split; [|split]].
  - intros a. apply Hnot. lia.
  - intros a b Hab%Hiff. apply Hnot. lia.
  - intros a b c Hab%Hiff Hbc%Hiff. apply Hiff. lia.
  - intros a b. rewrite !Hnot. unfold yearMonth. split.
    + intros [H1 H2]. f_equal; lia.
    + intros [= -> ->]. lia.
Qed.

Section rewards.

Variable chains : gmap string string.
Variable rangeMap : gmap string uint → list (string * uint).
Variable sort_Slice : ∀ A, (A → A → bool) → list A → list A.

Local Abbreviation toResponse := (toResponse chains rangeMap).
Local Abbreviation MonthlyRewardsEndpoint :=
  (MonthlyRewardsEndpoint chains rangeMap sort_Slice).

(** X25.  [MonthlyRewardsEndpoint] returns no summary when it fails: a
    request of another type is refused with its rendering in the error,
    and an error of the service is passed on behind the name of the
    endpoint, whatever months came with it. *)
Theorem MonthlyRewards_failure svc :
  (∀ rendering,
     MonthlyRewardsEndpoint svc (IsOther rendering)
     = (None, Some (Errorf "MonthlyRewardsEndpoint: "
                      (Errorf "failed to parse request: " rendering)))) ∧
  (∀ req months err,
     RewardsByMonth svc (mrr_Address req) = (months, Some err) →
     MonthlyRewardsEndpoint svc (IsMonthlyRewardsRequest req)
     = (None, Some (Errorf "MonthlyRewardsEndpoint: " err))).
Proof.
  split; [done|]. intros req months err Hsvc.
  unfold Monitoring.MonthlyRewardsEndpoint. by rewrite Hsvc.
Qed.

Lemma toResponse_NumRelays month :
  mr_NumRelays (toResponse month) = TotalProofs month.
Proof.
  unfold Monitoring.toResponse.
  by destruct (transactions_loop _ _ _ _ _) as [byChain transactions].
Qed.

(** X26.  When the service has answered, the endpoint returns one summary
    per month: as many summaries as months, each month with a summary of
    its year and month that carries its total of proofs as [num_relays]
    and its two timing fields, and no summary that comes from no month.
    Without months the response is the empty list. *)
Theorem MonthlyRewards_one_summary_per_month svc req months :
  Sorts sort_Slice →
  RewardsByMonth svc (mrr_Address req) = (months, None) →
  ∃ resp,
    MonthlyRewardsEndpoint svc (IsMonthlyRewardsRequest req) = (Some resp, None) ∧
    length resp = length months ∧
    (months = [] → resp = []) ∧
    (∀ m, m ∈ months →
       ∃ r, r ∈ resp ∧ mr_Year r = Year m ∧ mr_Month r = Month m ∧
            mr_NumRelays r = TotalProofs m ∧
            mr_AvgSecBetweenRewards r = AvgSecsBetweenRewards m ∧
            mr_TotalSecBetweenRewards r = TotalSecsBetweenRewards m) ∧
    (∀ r, r ∈ resp →
       ∃ m, m ∈ months ∧ mr_Year r = Year m ∧ mr_Month r = Month m ∧
            mr_NumRelays r = TotalProofs m).
Proof.
  intros Hsort Hsvc.
  exists (sort_Slice _ byYearMonthDesc (toResponse <$> months)).
  split; [by apply MonthlyRewardsEndpoint_ok|].
  destruct (Hsort _ byYearMonthDesc (toResponse <$> months)) as [Hperm _].
  split; [by rewrite Hperm, length_fmap|]. split; [|split].
  - intros ->. simpl in Hperm. by apply Permutation_nil_r in Hperm.
  - intros m Hm. exists (toResponse m). rewrite Hperm.
    split; [by apply list_elem_of_fmap_2|].
    destruct (toResponse_fields chains rangeMap m) as (-> & -> & -> & -> & _).
    by rewrite toResponse_NumRelays.
  - intros r Hr. rewrite Hperm in Hr.
    apply list_elem_of_fmap in Hr as [m [-> Hm]]. exists m.
    destruct (toResponse_fields chains rangeMap m) as (-> & -> & _).
    by rewrite toResponse_NumRelays.
Qed.

Lemma toTransactionResponse_copies tx :
  let t := toTransactionResponse chains tx in
  tr_Hash t = Hash tx ∧ tr_Height t = Height tx ∧ tr_Time t = TxTime tx ∧
  tr_Type t = Type_ tx ∧ tr_ChainID t = ChainID tx ∧
  tr_SessionHeight t = SessionHeight tx ∧
  tr_ExpireHeight t = ExpireHeight tx ∧ tr_AppPubkey t = AppPubkey tx ∧
  tr_NumRelays t = NumRelays tx ∧ tr_PoktPerRelay t = PoktPerRelay tx ∧
  tr_IsConfirmed t = IsConfirmed tx.
Proof.
  unfold toTransactionResponse. by destruct (Transaction_Chain chains tx).
Qed.

(** X27.  The transactions of a summary are those of its month, one per
    transaction and in the same order, each with the hash, height, time,
    type, chain identifier, session and expiry heights, application key,
    relays, rate and confirmation of its transaction. *)
Theorem summary_transactions_in_order svc req months :
  Sorts sort_Slice →
  RewardsByMonth svc (mrr_Address req) = (months, None) →
  ∃ resp,
    MonthlyRewardsEndpoint svc (IsMonthlyRewardsRequest req) = (Some resp, None) ∧
    ∀ r, r ∈ resp →
      ∃ m, m ∈ months ∧ mr_Year r = Year m ∧ mr_Month r = Month m ∧
        length (mr_Transactions r) = length (Transactions m) ∧
        ∀ j tx, Transactions m !! j = Some tx →
          ∃ t, mr_Transactions r !! j = Some t ∧
            tr_Hash t = Hash tx ∧ tr_Height t = Height tx ∧
            tr_Time t = TxTime tx ∧ tr_Type t = Type_ tx ∧
            tr_ChainID t = ChainID tx ∧
            tr_SessionHeight t = SessionHeight tx ∧
            tr_ExpireHeight t = ExpireHeight tx ∧
            tr_AppPubkey t = AppPubkey tx ∧
            tr_NumRelays t = NumRelays tx ∧
            tr_PoktPerRelay t = PoktPerRelay tx ∧
            tr_IsConfirmed t = IsConfirmed tx.
Proof.
  intros Hsort Hsvc.
  exists (sort_Slice _ byYearMonthDesc (toResponse <$> months)).
  split; [by apply MonthlyRewardsEndpoint_ok|].
  intros r Hr.
  destruct (response_of_month chains rangeMap sort_Slice _ r months Hsort
              eq_refl Hr) as [m [-> Hm]].
  exists m. destruct (toResponse_fields chains rangeMap m)
    as (-> & -> & _ & _ & -> & _).
  split; [done|]. split; [done|]. split; [done|].
  split; [by rewrite length_fmap|].
  intros j tx Hj. exists (toTransactionResponse chains tx).
  rewrite list_lookup_fmap, Hj. split; [done|].
  apply toTransactionResponse_copies.
Qed.

(** The entry of a chain after the loop over the transactions of a
    month. *)
Lemma byChain_entry txs ch v :
  fold_left countRelays txs ∅ !! ch = Some v ↔
  (∃ tx, tx ∈ txs ∧ ChainID tx = ch) ∧
  v = relaysOfChain ch (toTransactionResponse chains <$> txs).
Proof.
  rewrite countRelays_fold_lookup, relaysOfChain_responses, lookup_empty.
  destruct (filter (λ tx, ChainID tx = ch) txs) as [|tx rest] eqn:Hf.
  - split; [done|]. intros [[tx [Hin Hch]] _].
    assert (tx ∈ filter (λ tx, ChainID tx = ch) txs) as Hin'
      by (by apply list_elem_of_filter).
    rewrite Hf in Hin'. by apply not_elem_of_nil in Hin'.
  - simpl. split.
    + intros [= <-]. split; [|done]. exists tx.
      assert (tx ∈ filter (λ tx, ChainID tx = ch) txs) as Hin
        by (rewrite Hf; apply list_elem_of_here).
      apply list_elem_of_filter in Hin as [Hch Hin]. done.
    + by intros [_ ->].
Qed.

(** X28.  With a [range] that visits every entry of the map once, the
    [relays_by_chain] of a summary has exactly one entry per chain
    identifier among its transactions; an entry carries the relays of the
    transactions of its chain, summed as a [uint], and as name the name
    of the chain in the chain table or, without one, the identifier. *)
Theorem relays_by_chain_one_per_chain svc req months :
  Sorts sort_Slice →
  (∀ m, rangeMap m ≡ₚ map_to_list m) →
  RewardsByMonth svc (mrr_Address req) = (months, None) →
  ∃ resp,
    MonthlyRewardsEndpoint svc (IsMonthlyRewardsRequest req) = (Some resp, None) ∧
    ∀ r, r ∈ resp →
      NoDup (rbc_Chain <$> mr_RelaysByChain r) ∧
      (∀ ch, ch ∈ rbc_Chain <$> mr_RelaysByChain r ↔
             ∃ t, t ∈ mr_Transactions r ∧ tr_ChainID t = ch) ∧
      (∀ e, e ∈ mr_RelaysByChain r →
         rbc_NumRelays e = relaysOfChain (rbc_Chain e) (mr_Transactions r) ∧
         rbc_Name e = default (rbc_Chain e) (chains !! rbc_Chain e)).
Proof.
  intros Hsort Hrange Hsvc.
  exists (sort_Slice _ byYearMonthDesc (toResponse <$> months)).
  split; [by apply MonthlyRewardsEndpoint_ok|].
  intros r Hr.
  destruct (response_of_month chains rangeMap sort_Slice _ r months Hsort
              eq_refl Hr) as [m [-> _]].
  destruct (toResponse_fields chains rangeMap m) as (_ & _ & _ & _ & -> & ->).
  set (byChain := fold_left countRelays (Transactions m) ∅).
  assert (rbc_Chain <$> (toRelaysByChain chains <$> rangeMap byChain)
          = (rangeMap byChain).*1) as Hkeys.
  { rewrite <- list_fmap_compose. apply list_fmap_ext. intros i entry _.
    simpl. by destruct (toRelaysByChain_Chain chains entry). }
  assert (∀ ch, (∃ tx, tx ∈ Transactions m ∧ ChainID tx = ch) ↔
                ∃ t, t ∈ toTransactionResponse chains <$> Transactions m ∧
                     tr_ChainID t = ch) as Htx.
  { intros ch. split.
    - intros [tx [Hin Hch]]. exists (toTransactionResponse chains tx).
      split; [by apply list_elem_of_fmap_2|].
      by destruct (toTransactionResponse_fields chains tx) as [-> _].
    - intros [t [Hin Hch]]. apply list_elem_of_fmap in Hin as [tx [-> Hin]].
      exists tx. split; [done|].
      by destruct (toTransactionResponse_fields chains tx) as [<- _]. }
  rewrite Hkeys. split; [|split].
  - rewrite Hrange. apply NoDup_fst_map_to_list.
  - intros ch. rewrite Hrange, <- Htx. split.
    + intros [[k v] [-> Hkv]]%list_elem_of_fmap.
      apply elem_of_map_to_list in Hkv. simpl.
      by apply byChain_entry in Hkv as [Hex _].
    + intros Hex. apply list_elem_of_fmap.
      exists (ch, relaysOfChain ch (toTransactionResponse chains <$> Transactions m)).
      split; [done|]. apply elem_of_map_to_list. by apply byChain_entry.
  - intros e [[k v] [-> Hkv]]%list_elem_of_fmap.
    rewrite Hrange in Hkv. apply elem_of_map_to_list in Hkv.
    apply byChain_entry in Hkv as [_ ->].
    unfold toRelaysByChain, ChainFromID.
    destruct (chains !! k) as [name|] eqn:Hk; simpl; by rewrite Hk.
Qed.

End rewards.

(** *** Run on three months *)

Lemma MonthlyRewards_failure_witness :
  MonthlyRewardsEndpoint mainnetOnly map_to_list insertionSort downService
    someRequest
  = (None, Some (Errorf "MonthlyRewardsEndpoint: " "pocket: node unreachable")).
Proof.
  apply (proj2 (MonthlyRewards_failure mainnetOnly map_to_list insertionSort
                  downService) {| mrr_Address := "f9ab" |} []).
  reflexivity.
Defined.

Lemma MonthlyRewards_one_summary_per_month_witness :
  ∃ resp,
    MonthlyRewardsEndpoint mainnetOnly map_to_list insertionSort threeMonths
      someRequest = (Some resp, None) ∧
    length resp = 3%nat.
Proof.
  destruct (MonthlyRewards_one_summary_per_month mainnetOnly map_to_list
              insertionSort threeMonths {| mrr_Address := "f9ab" |}
              [january2023; december2022; march2023]
              insertionSort_Sorts eq_refl) as (resp & He & Hlen & _).
  exists resp. split; [exact He | exact Hlen].
Defined.

Lemma summary_transactions_in_order_witness :
  ∃ resp,
    MonthlyRewardsEndpoint mainnetOnly map_to_list insertionSort threeMonths
      someRequest = (Some resp, None) ∧
    ∀ r, r ∈ resp →
      ∃ m, m ∈ [january2023; december2022; march2023] ∧
           length (mr_Transactions r) = length (Transactions m).
Proof.
  destruct (summary_transactions_in_order mainnetOnly map_to_list
              insertionSort threeMonths {| mrr_Address := "f9ab" |}
              [january2023; december2022; march2023]
              insertionSort_Sorts eq_refl) as (resp & He & Hall).
  exists resp. split; [exact He|]. intros r Hr.
  destruct (Hall r Hr) as (m & Hm & _ & _ & Hlen & _).
  exists m. split; [exact Hm | exact Hlen].
Defined.

Lemma relays_by_chain_one_per_chain_witness :
  ∃ resp,
    MonthlyRewardsEndpoint mainnetOnly map_to_list insertionSort threeMonths
      someRequest = (Some resp, None) ∧
    ∀ r, r ∈ resp → NoDup (rbc_Chain <$> mr_RelaysByChain r).
Proof.
  destruct (relays_by_chain_one_per_chain mainnetOnly map_to_list
              insertionSort threeMonths {| mrr_Address := "f9ab" |}
              [january2023; december2022; march2023]
              insertionSort_Sorts (λ m, reflexivity _) eq_refl)
    as (resp & He & Hall).
  exists resp. split; [exact He|]. intros r Hr. exact (proj1 (Hall r Hr)).
Defined.

End RewardsFacts.
